(** * Transcript search and time-segment selection of the audio analyzer front end

    Shallow embedding of
    - [TranscriptionTab.handleSearch] (word-timestamp search),
    - [NewAudioDialog] (time-segment state, [handleUseFullAudioChange],
      [handleTimeChange], [validateTimeSegment], [handleCreate]),
    - [AudioAnalyzer] ([canTranscribe], [handleTranscribe]).

    Modelling conventions.
    - A JavaScript string is a list of UTF-16 code units; we model the
      strings whose code units all lie in Latin-1 (0..255) as [list ascii]
      (Rocq's [ascii] is an 8-bit character).  On this range
      [toLowerCase], [trim] and the white space of [parseFloat] are exact.
    - A JavaScript number is [NaN], [+Infinity], [-Infinity] or a finite
      value.  Every finite binary64 value is a finite decimal, so a finite
      number is written [Fin m e] with value [m * 10^e].  Rounding of decimal
      literals to binary64 is not modelled: parsed values are kept exact. *)

From Stdlib Require Import Bool Arith ZArith QArith Qabs Qround List Sorted Ascii String Lia.
From Stdlib Require Import Lqa.
Import ListNotations.

Open Scope bool_scope.
Close Scope Q_scope.

(** ** Strings *)

Definition jsstr := list ascii.

(** Literal helper: a Rocq string literal as a list of code units. *)
Definition s (x : string) : jsstr := list_ascii_of_string x.

Definition code (c : ascii) : nat := nat_of_ascii c.

(** WhiteSpace and LineTerminator code points of Latin-1:
    TAB, LF, VT, FF, CR, SPACE and NO-BREAK SPACE. *)
Definition is_ws (c : ascii) : bool :=
  let n := code c in
  ((9 <=? n) && (n <=? 13)) || (n =? 32) || (n =? 160).

(** [String.prototype.toLowerCase] on Latin-1: A-Z and U+00C0..U+00DE
    except U+00D7 are shifted by 0x20. *)
Definition to_lower_char (c : ascii) : ascii :=
  let n := code c in
  if ((65 <=? n) && (n <=? 90)) || ((192 <=? n) && (n <=? 222) && negb (n =? 215))
  then ascii_of_nat (n + 32) else c.

Definition toLowerCase (x : jsstr) : jsstr := map to_lower_char x.

Fixpoint trim_start (x : jsstr) : jsstr :=
  match x with
  | [] => []
  | c :: r => if is_ws c then trim_start r else x
  end.

(** [String.prototype.trim]: strip white space at both ends. *)
Definition trim (x : jsstr) : jsstr := rev (trim_start (rev (trim_start x))).

Fixpoint prefixb (p x : jsstr) : bool :=
  match p, x with
  | [], _ => true
  | _ :: _, [] => false
  | a :: p', b :: x' => Ascii.eqb a b && prefixb p' x'
  end.

(** [x.includes(t)]: [t] occurs in [x] at some position. *)
Fixpoint includes (x t : jsstr) : bool :=
  prefixb t x || match x with [] => false | _ :: x' => includes x' t end.

(** ** Numbers *)

Inductive num : Type :=
| NaN
| PInf
| NInf
| Fin (m : Z) (e : Z).

Definition pow10 (e : Z) : Q :=
  if (0 <=? e)%Z then inject_Z (10 ^ e) else 1 # Z.to_pos (10 ^ (- e)).

Definition fin_val (m e : Z) : Q := inject_Z m * pow10 e.

(** [isNaN] *)
Definition isNaN (x : num) : bool := match x with NaN => true | _ => false end.

Definition Qlt_bool (a b : Q) : bool := negb (Qle_bool b a).

(** JavaScript [x < y] (false as soon as one side is [NaN]). *)
Definition num_lt (x y : num) : bool :=
  match x, y with
  | NaN, _ | _, NaN => false
  | Fin m e, Fin m' e' => Qlt_bool (fin_val m e) (fin_val m' e')
  | NInf, NInf | PInf, _ | _, NInf => false
  | NInf, _ | _, PInf => true
  end.

(** JavaScript [x <= y]. *)
Definition num_le (x y : num) : bool :=
  match x, y with
  | NaN, _ | _, NaN => false
  | Fin m e, Fin m' e' => Qle_bool (fin_val m e) (fin_val m' e')
  | NInf, _ | _, PInf => true
  | PInf, _ | _, NInf => false
  end.

(** ToBoolean of a number: [NaN], [0] and [-0] are falsy. *)
Definition num_truthy (x : num) : bool :=
  match x with
  | NaN => false
  | Fin m _ => negb (m =? 0)%Z
  | _ => true
  end.

(** ToBoolean of a [number | null]. *)
Definition opt_truthy (x : option num) : bool :=
  match x with None => false | Some v => num_truthy v end.

(** [a || 0] for a number [a]. *)
Definition or_zero (x : num) : num := if num_truthy x then x else Fin 0 0.

(** *** [parseFloat] *)

Definition is_digit (c : ascii) : bool := (48 <=? code c) && (code c <=? 57).

Fixpoint span_digits (x : jsstr) : list nat * jsstr :=
  match x with
  | c :: r =>
      if is_digit c then let (ds, r') := span_digits r in ((code c - 48)%nat :: ds, r')
      else ([], x)
  | [] => ([], [])
  end.

Definition digits_val (ds : list nat) : Z :=
  fold_left (fun acc d => (acc * 10 + Z.of_nat d)%Z) ds 0%Z.

(** Optional ExponentPart: returns the exponent (0 when the text after the
    mantissa is not a complete exponent, which is then not consumed). *)
Definition parse_exponent (x : jsstr) : Z :=
  match x with
  | c :: r =>
      if (c =? "e")%char || (c =? "E")%char then
        let '(sg, r') :=
          match r with
          | c' :: r'' =>
              if (c' =? "+")%char then (1%Z, r'')
              else if (c' =? "-")%char then ((-1)%Z, r'') else (1%Z, r)
          | [] => (1%Z, r)
          end in
        match span_digits r' with
        | ([], _) => 0%Z
        | (ds, _) => (sg * digits_val ds)%Z
        end
      else 0%Z
  | [] => 0%Z
  end.

(** Longest prefix that is a StrUnsignedDecimalLiteral, or [NaN]. *)
Definition parse_unsigned (neg : bool) (x : jsstr) : num :=
  if prefixb (s "Infinity") x then (if neg then NInf else PInf) else
  let (ds1, r1) := span_digits x in
  let '(ds2, r2) :=
    match r1 with
    | c :: r => if (c =? ".")%char then span_digits r else ([], r1)
    | [] => ([], r1)
    end in
  match ds1, ds2 with
  | [], [] => NaN
  | _, _ =>
      let m := digits_val (ds1 ++ ds2) in
      Fin (if neg then (- m)%Z else m)
          (parse_exponent r2 - Z.of_nat (List.length ds2))%Z
  end.

(** [parseFloat(string)]: skip leading white space, read an optional sign
    and the longest StrUnsignedDecimalLiteral prefix. *)
Definition parseFloat (x : jsstr) : num :=
  match trim_start x with
  | c :: r =>
      if (c =? "-")%char then parse_unsigned true r
      else if (c =? "+")%char then parse_unsigned false r
      else parse_unsigned false (c :: r)
  | [] => NaN
  end.

(** *** [Number::toString] *)

(** Decimal digits of a positive [n] (most significant first); the fuel
    bounds the number of digits by the number of bits. *)
Fixpoint z_digits (fuel : nat) (n : Z) (acc : list nat) : list nat :=
  match fuel with
  | O => acc
  | S f =>
      let acc' := Z.to_nat (n mod 10) :: acc in
      if (n <? 10)%Z then acc' else z_digits f (n / 10) acc'
  end.

Definition digits_of (n : Z) : list nat := z_digits (Pos.size_nat (Z.to_pos n)) n [].

(** Remove the trailing zeros of the mantissa, moving them to the exponent. *)
Fixpoint strip_zeros (fuel : nat) (m e : Z) : Z * Z :=
  match fuel with
  | O => (m, e)
  | S f => if (m mod 10 =? 0)%Z then strip_zeros f (m / 10) (e + 1) else (m, e)
  end.

Definition digit_char (d : nat) : ascii := ascii_of_nat (48 + d).

Definition digits_str (ds : list nat) : jsstr := map digit_char ds.

Definition zeros (n : nat) : jsstr := repeat "0"%char n.

(** Number::toString(x) for a finite positive decimal [m * 10^e]: [k] digits,
    decimal point position [n]. *)
Definition pos_to_string (m e : Z) : jsstr :=
  let '(m', e') := strip_zeros (Pos.size_nat (Z.to_pos m)) m e in
  let ds := digits_of m' in
  let k := Z.of_nat (List.length ds) in
  let n := (k + e')%Z in
  if (k <=? n)%Z && (n <=? 21)%Z then digits_str ds ++ zeros (Z.to_nat (n - k))
  else if (0 <? n)%Z && (n <=? 21)%Z then
    digits_str (firstn (Z.to_nat n) ds) ++ s "." ++ digits_str (skipn (Z.to_nat n) ds)
  else if (-6 <? n)%Z && (n <=? 0)%Z then
    s "0." ++ zeros (Z.to_nat (- n)) ++ digits_str ds
  else
    let ex := s "e" ++ (if (0 <=? n - 1)%Z then s "+" else s "-")
                   ++ digits_str (digits_of (Z.abs (n - 1))) in
    match ds with
    | [d] => digit_char d :: ex
    | d :: rest => digit_char d :: s "." ++ digits_str rest ++ ex
    | [] => ex
    end.

Definition num_toString (x : num) : jsstr :=
  match x with
  | NaN => s "NaN"
  | PInf => s "Infinity"
  | NInf => s "-Infinity"
  | Fin m e =>
      if (m =? 0)%Z then s "0"
      else if (m <? 0)%Z then s "-" ++ pos_to_string (- m) e
      else pos_to_string m e
  end.

(** ** The time-segment state of [NewAudioDialog] *)

Module Dialog.

(** The dialog's local state that the time segment and [handleCreate] read.
    [startTime] and [endTime] are the raw text of the two input fields. *)
Record t : Type := mk {
  localAudioFile : option jsstr;
  localAudioFileName : jsstr;
  localRecordedFile : option jsstr;
  localWhisperModel : jsstr;
  localModelLoaded : bool;
  useFullAudio : bool;
  startTime : jsstr;
  endTime : jsstr;
  audioDuration : option num
}.

Definition setUseFullAudio (b : bool) (d : t) : t :=
  mk (localAudioFile d) (localAudioFileName d) (localRecordedFile d)
     (localWhisperModel d) (localModelLoaded d) b (startTime d) (endTime d)
     (audioDuration d).

Definition setStartTime (v : jsstr) (d : t) : t :=
  mk (localAudioFile d) (localAudioFileName d) (localRecordedFile d)
     (localWhisperModel d) (localModelLoaded d) (useFullAudio d) v (endTime d)
     (audioDuration d).

Definition setEndTime (v : jsstr) (d : t) : t :=
  mk (localAudioFile d) (localAudioFileName d) (localRecordedFile d)
     (localWhisperModel d) (localModelLoaded d) (useFullAudio d) (startTime d) v
     (audioDuration d).

(** [handleUseFullAudioChange(checked)]; the handler reads [audioDuration]
    from the state it was rendered with. *)
(** [setAudioDuration] (called once the metadata of the audio is loaded). *)
Definition setAudioDuration (v : option num) (d : t) : t :=
  mk (localAudioFile d) (localAudioFileName d) (localRecordedFile d)
     (localWhisperModel d) (localModelLoaded d) (useFullAudio d) (startTime d)
     (endTime d) v.

Definition handleUseFullAudioChange (checked : bool) (d : t) : t :=
  let d1 := setUseFullAudio checked d in
  match audioDuration d with
  | Some dur =>
      if checked && num_truthy dur
      then setEndTime (num_toString dur) (setStartTime (s "0") d1)
      else d1
  | None => d1
  end.

(** The [loadedmetadata] listener of [handleFileSelect]: stores the
    probed [audio.duration] and, when full audio is selected, writes it into
    the end field. *)
Definition loadedMetadata (duration : num) (d : t) : t :=
  let d1 := setAudioDuration (Some duration) d in
  if useFullAudio d then setEndTime (num_toString duration) d1 else d1.

Inductive field := FStart | FEnd.

Definition field_value (f : field) (d : t) : jsstr :=
  match f with FStart => startTime d | FEnd => endTime d end.

(** [handleTimeChange(field, value)] *)
Definition handleTimeChange (f : field) (value : jsstr) (d : t) : t :=
  let d1 := match f with
            | FStart => setStartTime value d
            | FEnd => setEndTime value d
            end in
  if useFullAudio d then setUseFullAudio false d1 else d1.

End Dialog.

(** The checks of [validateTimeSegment] after parsing (lines 176-178). *)
Definition segment_ok (start end_ : num) (audioDuration : option num) : bool :=
  if isNaN start || isNaN end_ then false
  else if num_lt start (Fin 0 0) || num_le end_ start then false
  else if (match audioDuration with
           | Some dur => num_truthy dur && num_lt dur end_
           | None => false
           end) then false
  else true.

(** [validateTimeSegment()] *)
Definition validateTimeSegment (d : Dialog.t) : bool :=
  if Dialog.useFullAudio d then true
  else segment_ok (parseFloat (Dialog.startTime d)) (parseFloat (Dialog.endTime d))
                  (Dialog.audioDuration d).

(** ** Word timestamps and search results *)

Record WordTimestamp : Type := mkWT {
  word : jsstr;
  start : Q;
  end_ : Q
}.

(** [SearchResult] of [AudioAnalyzer.tsx]; [index] is the 1-based position. *)
Record SearchResult : Type := mkSR {
  sr_word : jsstr;
  sr_start : Q;
  sr_end : Q;
  sr_index : nat
}.

(** ** The state of [AudioAnalyzer] and the transcription path *)

Module Analyzer.

(** The fields of [AudioAnalyzerState] that the time segment, the search and
    the transcription request use. *)
Record t : Type := mk {
  audioFilePath : option jsstr;
  audioFileName : jsstr;
  recordedFilePath : option jsstr;
  whisperModel : jsstr;
  modelLoaded : bool;
  isTranscribing : bool;
  useFullAudio : bool;
  startTime : num;
  endTime : num;
  audioDuration : option num;
  wordTimestamps : list WordTimestamp;
  searchTerm : jsstr;
  searchResults : list SearchResult
}.

(** The initial state of [useState<AudioAnalyzerState>]. *)
Definition initial : t :=
  mk None [] None (s "base") false false true (Fin 0 0) (Fin 0 0) None [] [] [].

End Analyzer.

(** ToBoolean of a [string | null]. *)
Definition str_truthy (x : option jsstr) : bool :=
  match x with Some (_ :: _) => true | _ => false end.

(** [canCreate] of [NewAudioDialog]: the Create button is enabled. *)
Definition canCreate (d : Dialog.t) : bool :=
  (str_truthy (Dialog.localAudioFile d) || str_truthy (Dialog.localRecordedFile d))
  && Dialog.localModelLoaded d.

(** [handleCreate]: the [updateState] call merging the dialog values into the
    analyzer state. *)
Definition handleCreate (d : Dialog.t) (st : Analyzer.t) : Analyzer.t :=
  Analyzer.mk (Dialog.localAudioFile d) (Dialog.localAudioFileName d)
    (Dialog.localRecordedFile d) (Dialog.localWhisperModel d)
    (Dialog.localModelLoaded d) (Analyzer.isTranscribing st)
    (Dialog.useFullAudio d)
    (or_zero (parseFloat (Dialog.startTime d)))
    (or_zero (parseFloat (Dialog.endTime d)))
    (Dialog.audioDuration d) [] [] [].

(** Clicking Create (disabled unless [canCreate]). *)
Definition clickCreate (d : Dialog.t) (st : Analyzer.t) : option Analyzer.t :=
  if canCreate d then Some (handleCreate d st) else None.

(** The JSON body posted to [/api/transcribe]. *)
Record TranscribeRequest : Type := mkReq {
  req_audioPath : jsstr;
  req_model : jsstr;
  req_useFullAudio : bool;
  req_startTime : num;
  req_endTime : num;
  req_includeWordTimestamps : bool
}.

Section Transcribe.

(** The upload of a [blob:] path: [Some] the [filePath] returned by
    [/api/upload], or [None] when [fetch] of the blob, the upload or the
    [.json()] of its reply throws (the [catch] branch: nothing is posted). *)
Variable upload : jsstr -> option jsstr.

(** [canTranscribe] of [AudioAnalyzer]: the Transcribe button is enabled. *)
Definition canTranscribe (st : Analyzer.t) : bool :=
  str_truthy (Analyzer.audioFilePath st) && Analyzer.modelLoaded st
  && negb (Analyzer.isTranscribing st).

(** [handleTranscribe]: the request it posts to [/api/transcribe], or [None]
    when it returns or throws before posting. *)
Definition handleTranscribe (st : Analyzer.t) : option TranscribeRequest :=
  match Analyzer.audioFilePath st with
  | Some ((_ :: _) as p) =>
      let realFilePath := if prefixb (s "blob:") p then upload p else Some p in
      match realFilePath with
      | Some path =>
          Some (mkReq path (Analyzer.whisperModel st) (Analyzer.useFullAudio st)
                      (Analyzer.startTime st) (Analyzer.endTime st) true)
      | None => None
      end
  | _ => None
  end.

(** Clicking Transcribe (disabled unless [canTranscribe]). *)
Definition clickTranscribe (st : Analyzer.t) : option TranscribeRequest :=
  if canTranscribe st then handleTranscribe st else None.

End Transcribe.

(** ** [handleSearch] of [TranscriptionTab] *)

(** The string [x.toFixed(1)], up to the injective rendering of its parts:
    a sign and either the integer [n] of [n / 10] (for [|x| < 10^21]) or the
    value itself (rendered by [ToString] with an exponent). *)
Inductive tkey : Type :=
| TKSmall (neg : bool) (n : Z)
| TKBig (neg : bool) (x : Q).

(** [Number.prototype.toFixed(1)]: [n] is the integer nearest to [10 x],
    the larger one on a tie. *)
Definition toFixed1 (x : Q) : tkey :=
  let neg := Qlt_bool x 0 in
  let a := if neg then (- x)%Q else x in
  if Qle_bool (inject_Z (10 ^ 21)) a then TKBig neg (Qred a)
  else TKSmall neg (Qfloor (a * 10 + (1 # 2))%Q).

Definition tkey_eq_dec (a b : tkey) : {a = b} + {a <> b}.
Proof. decide equality; try apply Bool.bool_dec; try apply Z.eq_dec;
  decide equality; try apply Pos.eq_dec; apply Z.eq_dec. Defined.

Definition tkey_eqb (a b : tkey) : bool := if tkey_eq_dec a b then true else false.

(** The [forEach] loop: [seen] is [seenTimes], [i] the 0-based index. *)
Fixpoint scan (term : jsstr) (seen : list tkey) (i : nat) (ws : list WordTimestamp)
  : list SearchResult :=
  match ws with
  | [] => []
  | w :: ws' =>
      if includes (toLowerCase (word w)) term then
        let k := toFixed1 (start w) in
        if existsb (tkey_eqb k) seen then scan term seen (S i) ws'
        else mkSR (word w) (start w) (end_ w) (S i) :: scan term (k :: seen) (S i) ws'
      else scan term seen (S i) ws'
  end.

(** [handleSearch()]: the [(searchResults, searchTerm)] it stores, for the
    text of the search box and [state.wordTimestamps]. *)
Definition handleSearch (localSearchTerm : jsstr) (wordTimestamps : list WordTimestamp)
  : list SearchResult * jsstr :=
  let searchTerm := toLowerCase (trim localSearchTerm) in
  match searchTerm with
  | [] => ([], [])
  | _ =>
      match wordTimestamps with
      | [] => ([], searchTerm)
      | _ => (firstn 50 (scan searchTerm [] 0 wordTimestamps), searchTerm)
      end
  end.

(** The results of a search. *)
Definition search (q : jsstr) (ws : list WordTimestamp) : list SearchResult :=
  fst (handleSearch q ws).

(** ** [handleSearchWord] of [AudioAnalyzer] *)

(** [Array.prototype.findIndex]: the index of the first element satisfying
    [p], or [-1]. *)
Fixpoint findIndex_from {A} (p : A -> bool) (l : list A) (i : nat) : Z :=
  match l with
  | [] => (-1)%Z
  | x :: l' => if p x then Z.of_nat i else findIndex_from p l' (S i)
  end.

Definition findIndex {A} (p : A -> bool) (l : list A) : Z := findIndex_from p l 0.

(** [Array.prototype.filter] with a callback reading the element and its
    index. *)
Fixpoint filter_index {A} (f : A -> nat -> bool) (l : list A) (i : nat) : list A :=
  match l with
  | [] => []
  | x :: l' => if f x i then x :: filter_index f l' (S i) else filter_index f l' (S i)
  end.

(** [Math.abs(m.start - match.start) < 0.1], on exact values: the rounding
    of the binary64 subtraction and of the literal [0.1] is not modelled, so
    near a distance of 0.1 the code may decide differently. *)
Definition closeTo (m match_ : WordTimestamp) : bool :=
  Qlt_bool (Qabs (start m - start match_)) (1 # 10).

Definition is_empty {A} (l : list A) : bool := match l with [] => true | _ => false end.

(** [handleSearchWord()]: the [searchResults] it stores, for
    [state.searchTerm] and [state.wordTimestamps] (the stored results are the
    word-timestamp objects themselves). *)
Definition handleSearchWord (searchTerm : jsstr) (wordTimestamps : list WordTimestamp)
  : list WordTimestamp :=
  if is_empty (trim searchTerm) || is_empty wordTimestamps then []
  else
    let term := trim (toLowerCase searchTerm) in
    let matches := filter (fun wordInfo => includes (toLowerCase (word wordInfo)) term)
                          wordTimestamps in
    let uniqueMatches :=
      filter_index (fun match_ index =>
                      Z.eqb (Z.of_nat index) (findIndex (fun m => closeTo m match_) matches))
                   matches 0 in
    firstn 50 uniqueMatches.

(** ** [formatTimestamp] / [formatDuration] *)

(** [String.prototype.padStart(n, '0')] *)
Definition padStart (n : nat) (x : jsstr) : jsstr :=
  if (List.length x <? n)%nat then repeat "0"%char (n - List.length x) ++ x else x.

(** [Math.floor] and the truncation inside [%] on a finite value. *)
Definition Qtrunc (x : Q) : Z := if Qlt_bool x 0 then Qceiling x else Qfloor x.

(** The JavaScript remainder [n % d] of finite values ([d] nonzero): the
    result has the sign of the dividend. *)
Definition js_mod (n d : Q) : Q := (n - d * inject_Z (Qtrunc (n / d)))%Q.

(** [formatTimestamp(seconds)] of [TranscriptionTab] and [AudioAnalyzer],
    and [formatDuration] of [NewAudioDialog] (same body), for a finite
    [seconds]. *)
Definition formatTimestamp (seconds : Q) : jsstr :=
  let mins := Qfloor (seconds / 60)%Q in
  let secs := Qfloor (js_mod seconds 60) in
  padStart 2 (num_toString (Fin mins 0)) ++ s ":" ++ padStart 2 (num_toString (Fin secs 0)).

(** ** [getHighlightedText] of [TranscriptionTab] *)

(** The class [[.*+?^${}()|[\]\\]] of the escaping regular expression. *)
Definition regex_special (c : ascii) : bool :=
  existsb (Ascii.eqb c) (s ".*+?^${}()|[]\").

(** [searchTerm.replace(/[.*+?^${}()|[\]\\]/g, '\\$&')]: a backslash before
    every special character. *)
Definition escapeRegExp (x : jsstr) : jsstr :=
  flat_map (fun c => if regex_special c then ["\"%char; c] else [c]) x.

(** Reading a pattern made of characters and identity escapes [\c] of the
    syntax characters: the literal string it matches, or [None] when the
    pattern uses any other regular-expression syntax. *)
Fixpoint regex_literal (p : jsstr) : option jsstr :=
  match p with
  | [] => Some []
  | c :: r =>
      if Ascii.eqb c "\" then
        match r with
        | c' :: r' =>
            if regex_special c' then option_map (cons c') (regex_literal r') else None
        | [] => None
        end
      else if regex_special c then None
      else option_map (cons c) (regex_literal r)
  end.

(** Character equality under the flag [i]: Canonicalize maps a character to
    its upper case; on Latin-1 two characters have the same canonical form
    exactly when their lower cases agree (U+00B5, U+00DF and U+00FF have no
    Latin-1 partner and stay alone). *)
Definition ci_eq (a b : ascii) : bool := Ascii.eqb (to_lower_char a) (to_lower_char b).

Fixpoint prefix_ci (p x : jsstr) : bool :=
  match p, x with
  | [], _ => true
  | _ :: _, [] => false
  | a :: p', b :: x' => ci_eq a b && prefix_ci p' x'
  end.

Definition dquote : ascii := ascii_of_nat 34.

Definition span_open : jsstr :=
  s "<span style=" ++ [dquote]
    ++ s "background-color: yellow; color: black; padding: 1px 2px; border-radius: 2px;"
    ++ [dquote] ++ s ">".

Definition span_close : jsstr := s "</span>".

(** [text.replace(regex, match => span_open + match + span_close)] for a
    global, case-insensitive regex matching the nonempty literal [lit]:
    from the current position, the leftmost match is wrapped and the search
    resumes after it.  The fuel is the length of the text: every match
    consumes at least one character. *)
Fixpoint replace_ci (fuel : nat) (lit t : jsstr) : jsstr :=
  match fuel with
  | O => t
  | S f =>
      match t with
      | [] => []
      | c :: r =>
          if prefix_ci lit t then
            span_open ++ firstn (List.length lit) t ++ span_close
              ++ replace_ci f lit (skipn (List.length lit) t)
          else c :: replace_ci f lit r
      end
  end.

Definition placeholder : jsstr := s "Transcribed text will appear here...".

(** [getHighlightedText(text, searchTerm)] *)
Definition getHighlightedText (text searchTerm : jsstr) : jsstr :=
  if is_empty searchTerm || is_empty text then
    (if is_empty text then placeholder else text)
  else
    match regex_literal (escapeRegExp searchTerm) with
    | Some lit => replace_ci (List.length text) lit text
    | None => text
    end.

(** ** [wordCount] and [charCount] of [TranscriptionTab] *)

(** [x.split(sep)] for a one-character separator. *)
Fixpoint split_char (sep : ascii) (x : jsstr) : list jsstr :=
  match x with
  | [] => [[]]
  | c :: r =>
      let parts := split_char sep r in
      if Ascii.eqb c sep then [] :: parts
      else match parts with
           | p :: ps => (c :: p) :: ps
           | [] => [[c]]
           end
  end.

Definition wordCount (transcribedText : jsstr) : nat :=
  if is_empty transcribedText then 0
  else List.length (filter (fun word => negb (is_empty word)) (split_char " " transcribedText)).

Definition charCount (transcribedText : jsstr) : nat := List.length transcribedText.

(** ** The number of clusters of [handleNetworkPlot] *)

(** Value of a digit in radix 10 or 16. *)
Definition radix_digit (hex : bool) (c : ascii) : option nat :=
  let n := code c in
  if (48 <=? n) && (n <=? 57) then Some (n - 48)%nat
  else if hex && (97 <=? n) && (n <=? 102) then Some (n - 87)%nat
  else if hex && (65 <=? n) && (n <=? 70) then Some (n - 55)%nat
  else None.

Fixpoint span_radix (hex : bool) (x : jsstr) : list nat * jsstr :=
  match x with
  | c :: r =>
      match radix_digit hex c with
      | Some d => let (ds, r') := span_radix hex r in (d :: ds, r')
      | None => ([], x)
      end
  | [] => ([], [])
  end.

Definition radix_val (hex : bool) (ds : list nat) : Z :=
  fold_left (fun acc d => (acc * (if hex then 16 else 10) + Z.of_nat d)%Z) ds 0%Z.

(** [parseInt(string)] (radix omitted): skip leading white space, read a
    sign, a [0x]/[0X] prefix switching to radix 16, and the longest run of
    digits of the radix. *)
Definition parseInt (x : jsstr) : num :=
  let '(neg, s1) :=
    match trim_start x with
    | c :: r =>
        if (c =? "-")%char then (true, r)
        else if (c =? "+")%char then (false, r) else (false, c :: r)
    | [] => (false, [])
    end in
  let '(hex, s2) :=
    match s1 with
    | c :: c' :: r =>
        if (c =? "0")%char && ((c' =? "x")%char || (c' =? "X")%char) then (true, r)
        else (false, s1)
    | _ => (false, s1)
    end in
  match span_radix hex s2 with
  | ([], _) => NaN
  | (ds, _) => let v := radix_val hex ds in Fin (if neg then (- v)%Z else v) 0
  end.

(** [Math.min(a, b)] and [Math.max(a, b)] *)
Definition Math_min (a b : num) : num :=
  if isNaN a || isNaN b then NaN else if num_lt b a then b else a.

Definition Math_max (a b : num) : num :=
  if isNaN a || isNaN b then NaN else if num_lt a b then b else a.

(** [numClusters] for the answer [clusters] of the prompt ([null] when it
    is cancelled). *)
Definition numClusters (clusters : option jsstr) : num :=
  match clusters with
  | Some ((_ :: _) as c) =>
      Math_max (Fin 2 0) (Math_min (Fin 10 0)
        (let v := parseInt c in if num_truthy v then v else Fin 5 0))
  | _ => Fin 5 0
  end.

(** ** The processing history *)

Module History.

(** [processHistory] and [currentHistoryIndex] of [AudioAnalyzerState]. *)
Record t : Type := mk {
  processHistory : list (jsstr * jsstr);
  currentHistoryIndex : Z
}.

(** The history written by [handleCreate]. *)
Definition created : t := mk [] (-1).

(** The history update of a successful [handleSummarize] or
    [handleCustomPrompt]: append [{ prompt, result }] and select it. *)
Definition append (entry : jsstr * jsstr) (h : t) : t :=
  let newHistory := processHistory h ++ [entry] in
  mk newHistory (Z.of_nat (List.length newHistory) - 1).

(** [currentHistoryIndex] is [-1] on an empty history, otherwise an index of
    it. *)
Definition wf (h : t) : Prop :=
  (processHistory h = [] /\ currentHistoryIndex h = (-1)%Z) \/
  (0 <= currentHistoryIndex h < Z.of_nat (List.length (processHistory h)))%Z.

End History.

(** ** Opening the dialog and choosing a model *)

(** The reset effect run when the dialog opens. *)
Definition resetOnOpen (d : Dialog.t) : Dialog.t :=
  Dialog.mk None [] None (s "base") false (Dialog.useFullAudio d) (Dialog.startTime d)
            (Dialog.endTime d) (Dialog.audioDuration d).

(** [handleModelChange(value)] *)
Definition handleModelChange (value : jsstr) (d : Dialog.t) : Dialog.t :=
  Dialog.mk (Dialog.localAudioFile d) (Dialog.localAudioFileName d)
            (Dialog.localRecordedFile d) value false (Dialog.useFullAudio d)
            (Dialog.startTime d) (Dialog.endTime d) (Dialog.audioDuration d).

(** The update of [checkModelStatus]: [Some loaded] for a successful response
    with [data.loaded], [None] for an error status or a failed request. *)
Definition checkModelStatus (response : option bool) (d : Dialog.t) : Dialog.t :=
  Dialog.mk (Dialog.localAudioFile d) (Dialog.localAudioFileName d)
            (Dialog.localRecordedFile d) (Dialog.localWhisperModel d)
            (match response with Some loaded => loaded | None => false end)
            (Dialog.useFullAudio d) (Dialog.startTime d) (Dialog.endTime d)
            (Dialog.audioDuration d).

(** [handleFileSelect] for a chosen file: the object URL and the file name
    (the duration arrives later through [loadedMetadata]). *)
Definition handleFileSelect (url name : jsstr) (d : Dialog.t) : Dialog.t :=
  Dialog.mk (Some url) name (Dialog.localRecordedFile d) (Dialog.localWhisperModel d)
            (Dialog.localModelLoaded d) (Dialog.useFullAudio d) (Dialog.startTime d)
            (Dialog.endTime d) (Dialog.audioDuration d).

(** ** Reading numbers back *)

(** A string that does not start with a digit. *)
Definition not_digit_head (r : jsstr) : Prop :=
  match r with c :: _ => is_digit c = false | [] => True end.

(** [out] starts with a digit and, read by [parse_unsigned] with either
    sign, gives a number of value [±(m * 10^e)]. *)
Definition parses_back (out : jsstr) (m e : Z) : Prop :=
  exists M E,
    (forall b, parse_unsigned b out = Fin (if b then (- M)%Z else M) E) /\
    (fin_val M E == fin_val m e)%Q /\
    exists c r, out = c :: r /\ is_digit c = true.

(** Two numbers are the same JavaScript number: the same special value, or
    finite with the same value. *)
Definition same_number (x y : num) : Prop :=
  match x, y with
  | NaN, NaN | PInf, PInf | NInf, NInf => True
  | Fin m e, Fin m' e' => (fin_val m e == fin_val m' e')%Q
  | _, _ => False
  end.

(** ** Concrete inputs *)

(** The transcript of the spec's search scenario. *)
Definition transcript : list WordTimestamp :=
  [mkWT (s "Hello,") 0 (5 # 10); mkWT (s "this") (7 # 10) (9 # 10);
   mkWT (s "is") (9 # 10) 1; mkWT (s "person") 1 (14 # 10);
   mkWT (s "2") (14 # 10) (16 # 10)].

(** [n] occurrences of "hi", the [k]-th starting at [k * step] seconds. *)
Definition hits (n : nat) (step : Q) : list WordTimestamp :=
  map (fun k => mkWT (s "hi") (inject_Z (Z.of_nat k) * step)
                     (inject_Z (Z.of_nat k) * step + (1 # 100))) (seq 0 n).

(** A dialog whose time segment is being edited. *)
Definition dialog_with (full : bool) (st en : jsstr) (dur : option num) : Dialog.t :=
  Dialog.mk (Some (s "blob:audio")) (s "audio.wav") None (s "base") true full st en dur.

(** ** Properties of the search *)

Lemma toLowerCase_nil : toLowerCase [] = [].
Proof. reflexivity. Qed.

Lemma toLowerCase_nil_iff (x : jsstr) : toLowerCase x = [] <-> x = [].
Proof. destruct x; simpl; split; congruence. Qed.

Lemma in_firstn_in {A} (n : nat) (l : list A) (x : A) : In x (firstn n l) -> In x l.
Proof.
  revert l; induction n as [|n IH]; intros [|a l]; simpl; try tauto.
  intros [->|H]; [left; reflexivity | right; apply IH, H].
Qed.

(** Every result of the scan comes from the word at position [sr_index - 1]
    of the scanned list, shifted by the index [i] the scan started at. *)
Lemma scan_from_position (term : jsstr) (seen : list tkey) (i : nat)
    (ws : list WordTimestamp) (r : SearchResult) :
  In r (scan term seen i ws) ->
  exists j w, nth_error ws j = Some w /\ sr_index r = (i + j + 1)%nat /\
              sr_word r = word w /\ sr_start r = start w /\ sr_end r = end_ w.
Proof.
  revert seen i; induction ws as [|w ws IH]; intros seen i H; simpl in H; [contradiction|].
  destruct (includes (toLowerCase (word w)) term).
  - destruct (existsb (tkey_eqb (toFixed1 (start w))) seen).
    + destruct (IH _ _ H) as (j & w' & Hj & Hi & Hw); exists (S j), w'.
      simpl; split; [exact Hj | split; [lia | exact Hw]].
    + destruct H as [<-|H].
      * exists 0%nat, w; simpl; repeat split; try reflexivity; lia.
      * destruct (IH _ _ H) as (j & w' & Hj & Hi & Hw); exists (S j), w'.
        simpl; split; [exact Hj | split; [lia | exact Hw]].
  - destruct (IH _ _ H) as (j & w' & Hj & Hi & Hw); exists (S j), w'.
    simpl; split; [exact Hj | split; [lia | exact Hw]].
Qed.

Lemma search_from_scan (q : jsstr) (ws : list WordTimestamp) (r : SearchResult) :
  In r (search q ws) -> In r (scan (toLowerCase (trim q)) [] 0 ws).
Proof.
  unfold search, handleSearch.
  destruct (toLowerCase (trim q)) as [|c t]; [simpl; tauto|].
  destruct ws as [|w ws]; [simpl; tauto|].
  exact (in_firstn_in 50 _ r).
Qed.

(** ** The de-duplication of [handleSearch] *)

Lemma seen_has_spec (k : tkey) (seen : list tkey) :
  existsb (tkey_eqb k) seen = true <-> In k seen.
Proof.
  rewrite existsb_exists; unfold tkey_eqb; split.
  - intros (k' & Hin & Heq); destruct (tkey_eq_dec k k'); [subst; exact Hin | discriminate].
  - intros Hin; exists k; split; [exact Hin|]; destruct (tkey_eq_dec k k); congruence.
Qed.

Definition result_key (r : SearchResult) : tkey := toFixed1 (sr_start r).

(** A result of the scan is a matching word whose key had not been seen
    before it: neither in [seen] nor at an earlier matching word. *)
Lemma scan_first_seen (term : jsstr) (seen : list tkey) (i : nat)
    (ws : list WordTimestamp) (r : SearchResult) :
  In r (scan term seen i ws) ->
  ~ In (result_key r) seen /\
  exists j w, nth_error ws j = Some w /\ sr_index r = (i + j + 1)%nat /\
    sr_start r = start w /\ includes (toLowerCase (word w)) term = true /\
    forall j' w', (j' < j)%nat -> nth_error ws j' = Some w' ->
      includes (toLowerCase (word w')) term = true ->
      toFixed1 (start w') <> result_key r.
Proof.
  revert seen i; induction ws as [|w ws IH]; intros seen i H; simpl in H; [contradiction|].
  destruct (includes (toLowerCase (word w)) term) eqn:Hw.
  - destruct (existsb (tkey_eqb (toFixed1 (start w))) seen) eqn:Hs.
    + apply seen_has_spec in Hs.
      destruct (IH _ _ H) as (Hr & j & w' & Hj & Hi & Hst & Hm & Hfirst).
      split; [exact Hr|]; exists (S j), w'; repeat split; try assumption; [lia|].
      intros [|j'] w'' Hlt Hn Hm'.
      * injection Hn as <-; intros E; apply Hr; rewrite <- E; exact Hs.
      * apply (Hfirst j'); [lia | exact Hn | exact Hm'].
    + destruct H as [<- | H].
      * split.
        -- intros Hin; apply seen_has_spec in Hin; unfold result_key in Hin;
             simpl in Hin; congruence.
        -- exists 0%nat, w; repeat split; try reflexivity; try assumption; try (simpl; lia).
      * destruct (IH _ _ H) as (Hr & j & w' & Hj & Hi & Hst & Hm & Hfirst).
        split; [intros Hin; apply Hr; right; exact Hin|].
        exists (S j), w'; repeat split; try assumption; [lia|].
        intros [|j'] w'' Hlt Hn Hm'.
        -- injection Hn as <-; intros E; apply Hr; left; exact E.
        -- apply (Hfirst j'); [lia | exact Hn | exact Hm'].
  - destruct (IH _ _ H) as (Hr & j & w' & Hj & Hi & Hst & Hm & Hfirst).
    split; [exact Hr|]; exists (S j), w'; repeat split; try assumption; [lia|].
    intros [|j'] w'' Hlt Hn Hm'.
    + injection Hn as <-; congruence.
    + apply (Hfirst j'); [lia | exact Hn | exact Hm'].
Qed.

Lemma scan_nodup (term : jsstr) (seen : list tkey) (i : nat) (ws : list WordTimestamp) :
  NoDup (map result_key (scan term seen i ws)).
Proof.
  revert seen i; induction ws as [|w ws IH]; intros seen i; simpl; [constructor|].
  destruct (includes (toLowerCase (word w)) term); [|apply IH].
  destruct (existsb (tkey_eqb (toFixed1 (start w))) seen); [apply IH|].
  simpl; constructor; [|apply IH].
  intros Hin; apply in_map_iff in Hin; destruct Hin as (r & Hk & Hr).
  apply scan_first_seen in Hr; destruct Hr as [Hr _]; apply Hr; left.
  unfold result_key in *; simpl in *; congruence.
Qed.

Lemma nodup_firstn {A} (n : nat) (l : list A) : NoDup l -> NoDup (firstn n l).
Proof.
  intros H; rewrite <- (firstn_skipn n l) in H; exact (NoDup_app_remove_r _ _ H).
Qed.

(** The results the scan gives when no match is dropped. *)
Fixpoint to_results (i : nat) (ws : list WordTimestamp) : list SearchResult :=
  match ws with
  | [] => []
  | w :: ws' => mkSR (word w) (start w) (end_ w) (S i) :: to_results (S i) ws'
  end.

Lemma scan_all_kept (term : jsstr) (seen : list tkey) (i : nat) (ws : list WordTimestamp) :
  Forall (fun w => includes (toLowerCase (word w)) term = true) ws ->
  NoDup (map (fun w => toFixed1 (start w)) ws) ->
  (forall w, In w ws -> ~ In (toFixed1 (start w)) seen) ->
  scan term seen i ws = to_results i ws.
Proof.
  revert seen i; induction ws as [|w ws IH]; intros seen i Hm Hnd Hseen; [reflexivity|].
  inversion Hm as [|? ? Hw Hm']; subst; inversion Hnd as [|? ? Hnin Hnd']; subst; simpl.
  rewrite Hw.
  destruct (existsb (tkey_eqb (toFixed1 (start w))) seen) eqn:Hs.
  - apply seen_has_spec in Hs; exfalso; apply (Hseen w); [left; reflexivity | exact Hs].
  - f_equal; apply IH; [exact Hm' | exact Hnd'|].
    intros w' Hin [E | E].
    + apply Hnin; rewrite E; exact (in_map (fun w => toFixed1 (start w)) _ _ Hin).
    + apply (Hseen w'); [right; exact Hin | exact E].
Qed.

Lemma to_results_length (i : nat) (ws : list WordTimestamp) :
  List.length (to_results i ws) = List.length ws.
Proof. revert i; induction ws; intros i; simpl; [reflexivity | rewrite IHws; reflexivity]. Qed.

Lemma to_results_starts (i : nat) (ws : list WordTimestamp) :
  map sr_start (to_results i ws) = map start ws.
Proof. revert i; induction ws; intros i; simpl; [reflexivity | rewrite IHws; reflexivity]. Qed.

Lemma sorted_firstn {A} (R : A -> A -> Prop) (n : nat) (l : list A) :
  Sorted R l -> Sorted R (firstn n l).
Proof.
  revert n; induction l as [|a l IH]; intros n H; destruct n; simpl; try constructor.
  - apply IH; inversion H; assumption.
  - inversion H as [|? ? _ Hhd]; subst.
    destruct l, n; simpl; constructor; inversion Hhd; assumption.
Qed.

(** Boolean test of [NoDup] on keys, for concrete inputs. *)
Fixpoint tkeys_nodupb (l : list tkey) : bool :=
  match l with
  | [] => true
  | k :: l' => negb (existsb (tkey_eqb k) l') && tkeys_nodupb l'
  end.

Lemma tkeys_nodupb_spec (l : list tkey) : tkeys_nodupb l = true -> NoDup l.
Proof.
  induction l as [|k l IH]; simpl; intros H; [constructor|].
  apply andb_true_iff in H; destruct H as [H1 H2]; constructor; [|exact (IH H2)].
  intros Hin; apply seen_has_spec in Hin; rewrite Hin in H1; discriminate.
Qed.

(** A matching word whose key is neither in [seen] nor the key of an
    earlier matching word is a result of the scan. *)
Lemma scan_keeps_first (term : jsstr) (seen : list tkey) (i : nat)
    (ws : list WordTimestamp) (j : nat) (w : WordTimestamp) :
  nth_error ws j = Some w ->
  includes (toLowerCase (word w)) term = true ->
  ~ In (toFixed1 (start w)) seen ->
  (forall j' w', (j' < j)%nat -> nth_error ws j' = Some w' ->
     includes (toLowerCase (word w')) term = true ->
     toFixed1 (start w') <> toFixed1 (start w)) ->
  In (mkSR (word w) (start w) (end_ w) (i + j + 1)) (scan term seen i ws).
Proof.
  revert seen i j; induction ws as [|w0 ws IH]; intros seen i j Hj Hm Hs Hfirst;
    [destruct j; discriminate|].
  destruct j as [|j].
  - simpl in Hj; injection Hj as <-; simpl; rewrite Hm.
    destruct (existsb (tkey_eqb (toFixed1 (start w0))) seen) eqn:E;
      [apply seen_has_spec in E; contradiction|].
    left; f_equal; lia.
  - simpl in Hj; simpl.
    replace (i + S j + 1)%nat with (S i + j + 1)%nat by lia.
    assert (Hf' : forall j' w', (j' < j)%nat -> nth_error ws j' = Some w' ->
              includes (toLowerCase (word w')) term = true ->
              toFixed1 (start w') <> toFixed1 (start w))
      by (intros j' w' H1 H2 H3; apply (Hfirst (S j')); [lia | exact H2 | exact H3]).
    destruct (includes (toLowerCase (word w0)) term) eqn:Hm0; [|apply IH; assumption].
    destruct (existsb (tkey_eqb (toFixed1 (start w0))) seen) eqn:E; [apply IH; assumption|].
    right; apply IH; try assumption.
    intros [E' | E']; [|contradiction].
    exact (Hfirst 0%nat w0 ltac:(lia) eq_refl Hm0 E').
Qed.

(** The indices of the scan's results strictly increase. *)
Lemma scan_indices_sorted (term : jsstr) (seen : list tkey) (i : nat) (ws : list WordTimestamp) :
  StronglySorted (fun a b => (sr_index a < sr_index b)%nat) (scan term seen i ws).
Proof.
  revert seen i; induction ws as [|w ws IH]; intros seen i; simpl; [constructor|].
  destruct (includes (toLowerCase (word w)) term); [|apply IH].
  destruct (existsb (tkey_eqb (toFixed1 (start w))) seen); [apply IH|].
  constructor; [apply IH|].
  apply Forall_forall; intros r Hr; simpl.
  destruct (scan_from_position _ _ _ _ _ Hr) as (j & w' & _ & Hi & _); lia.
Qed.

(** An element of a strictly sorted list is among its first [n] elements,
    or those [n] elements all come before it. *)
Lemma firstn_in_or_full {A} (R : A -> A -> Prop) (n : nat) (l : list A) (x : A) :
  StronglySorted R l -> In x l ->
  In x (firstn n l) \/ (List.length (firstn n l) = n /\ Forall (fun y => R y x) (firstn n l)).
Proof.
  revert n; induction l as [|a l IH]; intros n Hs Hin; [contradiction|].
  destruct n as [|n]; [right; split; [reflexivity | constructor]|].
  apply StronglySorted_inv in Hs; destruct Hs as [Hs Ha].
  destruct Hin as [<- | Hin]; [left; left; reflexivity|].
  destruct (IH n Hs Hin) as [H | [Hl Hf]]; [left; right; exact H|].
  right; simpl; split; [rewrite Hl; reflexivity|].
  constructor; [|exact Hf].
  rewrite Forall_forall in Ha; exact (Ha x Hin).
Qed.

(** ** Substrings, trimming and lower case *)

Lemma prefixb_spec (p x : jsstr) : prefixb p x = true <-> exists b, x = p ++ b.
Proof.
  revert x; induction p as [|a p IH]; intros [|c x]; simpl.
  - split; [exists []; reflexivity | reflexivity].
  - split; [exists (c :: x); reflexivity | reflexivity].
  - split; [discriminate | intros [b Hb]; discriminate].
  - rewrite andb_true_iff, IH, Ascii.eqb_eq; split.
    + intros [-> [b ->]]; exists b; reflexivity.
    + intros [b Hb]; injection Hb as -> ->; split; [reflexivity | exists b; reflexivity].
Qed.

(** [includes] is the substring relation. *)
Lemma includes_spec (x t : jsstr) : includes x t = true <-> exists a b, x = a ++ t ++ b.
Proof.
  induction x as [|c x IH]; simpl; rewrite orb_true_iff, prefixb_spec.
  - split.
    + intros [[b Hb] | H]; [exists [], b; exact Hb | discriminate].
    + intros ([|a0 a] & b & H); [left; exists b; exact H | discriminate].
  - rewrite IH; split.
    + intros [[b Hb] | (a & b & H)]; [exists [], b; exact Hb|].
      exists (c :: a), b; rewrite H; reflexivity.
    + intros ([|a0 a] & b & H); [left; exists b; exact H|].
      injection H as -> H; right; exists a, b; exact H.
Qed.

Lemma trim_start_suffix (x : jsstr) : exists a, x = a ++ trim_start x.
Proof.
  induction x as [|c x [a Ha]]; [exists []; reflexivity|]; simpl.
  destruct (is_ws c); [exists (c :: a); rewrite Ha at 1; reflexivity | exists []; reflexivity].
Qed.

(** The trimmed string is a substring of the original one. *)
Lemma trim_infix (x : jsstr) : exists a b, x = a ++ trim x ++ b.
Proof.
  unfold trim.
  destruct (trim_start_suffix x) as [a Ha].
  destruct (trim_start_suffix (rev (trim_start x))) as [b Hb].
  exists a, (rev b).
  rewrite Ha at 1; f_equal.
  transitivity (rev (rev (trim_start x))); [symmetry; apply rev_involutive|].
  rewrite Hb at 1; rewrite rev_app_distr; reflexivity.
Qed.

Lemma includes_trans (x y z : jsstr) :
  includes x y = true -> includes y z = true -> includes x z = true.
Proof.
  rewrite !includes_spec; intros (a & b & ->) (c & d & ->).
  exists (a ++ c), (d ++ b); rewrite <- !app_assoc; reflexivity.
Qed.

Lemma includes_map (f : ascii -> ascii) (x y : jsstr) :
  includes x y = true -> includes (map f x) (map f y) = true.
Proof.
  rewrite !includes_spec; intros (a & b & ->).
  exists (map f a), (map f b); rewrite !map_app; reflexivity.
Qed.

(** ** Properties of the JavaScript comparisons *)

(** Away from [NaN], [!(b < a)] is [a <= b]. *)
Lemma num_le_not_lt (a b : num) :
  isNaN a = false -> isNaN b = false -> num_le a b = negb (num_lt b a).
Proof.
  destruct a, b; simpl; intros; try discriminate; try reflexivity.
  unfold Qlt_bool; rewrite negb_involutive; reflexivity.
Qed.

Lemma segment_ok_none_iff (st en : num) :
  segment_ok st en None = true <->
  isNaN st = false /\ isNaN en = false /\
  num_le (Fin 0 0) st = true /\ num_lt st en = true.
Proof.
  unfold segment_ok.
  destruct (isNaN st) eqn:Hs; [simpl; split; [discriminate | intuition discriminate]|].
  destruct (isNaN en) eqn:He; [simpl; split; [discriminate | intuition discriminate]|].
  rewrite (num_le_not_lt (Fin 0 0) st), (num_le_not_lt en st) by (reflexivity || assumption).
  simpl; destruct (num_lt st (Fin 0 0)), (num_lt st en); simpl;
    split; intuition discriminate.
Qed.

(** The checks of [validateTimeSegment] as a relation on the parsed values:
    JavaScript's [!(a < b)] is [b <= a] away from [NaN]. *)
Lemma segment_ok_iff (st en : num) (dur : option num) :
  segment_ok st en dur = true <->
  isNaN st = false /\ isNaN en = false /\
  num_le (Fin 0 0) st = true /\ num_lt st en = true /\
  (opt_truthy dur = false \/ exists v, dur = Some v /\ num_le en v = true).
Proof.
  destruct dur as [v|].
  2:{ rewrite segment_ok_none_iff; simpl; intuition. }
  destruct (num_truthy v) eqn:Hv.
  - assert (HvN : isNaN v = false) by (destruct v; simpl in *; congruence).
    unfold segment_ok.
    destruct (isNaN st) eqn:Hs; [simpl; split; [discriminate | intuition discriminate]|].
    destruct (isNaN en) eqn:He; [simpl; split; [discriminate | intuition discriminate]|].
    rewrite (num_le_not_lt (Fin 0 0) st), (num_le_not_lt en st)
      by (reflexivity || assumption).
    assert (Hle : num_le en v = negb (num_lt v en)) by (apply num_le_not_lt; assumption).
    rewrite Hv; cbn [orb andb negb opt_truthy].
    destruct (num_lt st (Fin 0 0)), (num_lt st en), (num_lt v en); simpl in *;
      split; try discriminate; intros; try (intuition discriminate).
    + destruct H as (_ & _ & _ & _ & [H | (v' & Hv' & H)]); [congruence|].
      injection Hv' as <-; congruence.
    + repeat split; auto. right; exists v; split; [reflexivity | exact Hle].
  - assert (Hs : segment_ok st en (Some v) = segment_ok st en None).
    { unfold segment_ok; rewrite Hv; reflexivity. }
    rewrite Hs, segment_ok_none_iff; simpl; rewrite Hv; intuition.
Qed.

(** * Claims *)

(** ** Search *)

(** C4: a query that is empty after trimming, or an empty timestamp
    sequence, gives an empty result set (the search is a total function:
    it has no failure). *)
Theorem search_empty_query_or_index (q : jsstr) (ws : list WordTimestamp)
  (H : trim q = [] \/ ws = []) : search q ws = [].
Proof.
  unfold search, handleSearch.
  destruct H as [-> | ->]; [reflexivity|].
  destruct (toLowerCase (trim q)); reflexivity.
Qed.

Lemma search_empty_query_or_index_witness :
  trim (s "   ") = [] /\ search (s "   ") transcript = [].
Proof.
  split; [reflexivity|].
  apply search_empty_query_or_index; left; reflexivity.
Defined.

(** C9: the [index] of every result is the 1-based position of its word in
    the whole timestamp sequence; on the spec's transcript the query
    "person" gives exactly the fourth word with index 4. *)
Theorem search_index_is_position :
  (forall (q : jsstr) (ws : list WordTimestamp) (r : SearchResult),
     In r (search q ws) ->
     (1 <= sr_index r)%nat /\
     exists w, nth_error ws (sr_index r - 1) = Some w /\
               sr_word r = word w /\ sr_start r = start w /\ sr_end r = end_ w) /\
  search (s "person") transcript = [mkSR (s "person") 1 (14 # 10) 4].
Proof.
  split; [|reflexivity].
  intros q ws r Hr.
  destruct (scan_from_position _ _ _ _ _ (search_from_scan _ _ _ Hr))
    as (j & w & Hj & Hi & Hw).
  rewrite Hi; split; [lia|].
  exists w; replace (0 + j + 1 - 1)%nat with j by lia; split; assumption.
Qed.

Lemma search_index_is_position_witness :
  nth_error transcript 3 = Some (mkWT (s "person") 1 (14 # 10)) /\
  search (s "person") transcript = [mkSR (s "person") 1 (14 # 10) 4].
Proof.
  split; [reflexivity|].
  exact (proj2 search_index_is_position).
Defined.

(** ** Segment validation *)

(** C10: when the probed duration is exactly 0, [validateTimeSegment] does
    not bound [endTime] at all: it answers as if the duration were unknown,
    true exactly for parseable values with [startTime >= 0] and
    [endTime > startTime]. *)
Theorem validate_zero_duration_unbounded (d : Dialog.t) (e : Z)
  (Hfull : Dialog.useFullAudio d = false)
  (Hdur : Dialog.audioDuration d = Some (Fin 0 e)) :
  validateTimeSegment d = validateTimeSegment (Dialog.setAudioDuration None d) /\
  (validateTimeSegment d = true <->
   let st := parseFloat (Dialog.startTime d) in
   let en := parseFloat (Dialog.endTime d) in
   isNaN st = false /\ isNaN en = false /\
   num_le (Fin 0 0) st = true /\ num_lt st en = true).
Proof.
  unfold validateTimeSegment; simpl; rewrite Hfull, Hdur.
  assert (Hs : forall a b, segment_ok a b (Some (Fin 0 e)) = segment_ok a b None).
  { intros a b; unfold segment_ok; simpl.
    destruct (isNaN a || isNaN b), (num_lt a (Fin 0 0) || num_le b a); reflexivity. }
  rewrite Hs; split; [reflexivity|].
  apply segment_ok_none_iff.
Qed.

Lemma validate_zero_duration_unbounded_witness :
  validateTimeSegment (dialog_with false (s "2") (s "500") (Some (Fin 0 0))) = true.
Proof.
  apply (validate_zero_duration_unbounded _ 0); try reflexivity.
  simpl; repeat split; reflexivity.
Defined.

(** C1 (counterexample): a media element reports [Infinity] as the
    duration of a stream.  Loading such a file with full audio selected and
    then editing the start field leaves the end field at "Infinity", and
    [validateTimeSegment] accepts this range whose end is not finite. *)
Lemma validate_accepts_infinite_end :
  let d := Dialog.handleTimeChange Dialog.FStart (s "0")
             (Dialog.loadedMetadata PInf (dialog_with true (s "0") (s "0") None)) in
  Dialog.useFullAudio d = false /\ Dialog.endTime d = s "Infinity" /\
  parseFloat (Dialog.endTime d) = PInf /\ validateTimeSegment d = true.
Proof. repeat split; reflexivity. Qed.

(** C1 (amended): [validateTimeSegment] is true when [useFullAudio] is
    true; otherwise it is true iff both parsed values are not [NaN]
    (infinite values pass), [startTime >= 0], [endTime > startTime], and the
    duration is unknown or falsy (null, 0 or [NaN]) or [endTime <= duration].
    With a duration of 10 it accepts (0, 10) and rejects (0, 10.001),
    (5, 5) and (-1, 5). *)
Theorem validate_rule :
  (forall d : Dialog.t,
     validateTimeSegment d = true <->
     Dialog.useFullAudio d = true \/
     (Dialog.useFullAudio d = false /\
      let st := parseFloat (Dialog.startTime d) in
      let en := parseFloat (Dialog.endTime d) in
      isNaN st = false /\ isNaN en = false /\
      num_le (Fin 0 0) st = true /\ num_lt st en = true /\
      (opt_truthy (Dialog.audioDuration d) = false \/
       exists dur, Dialog.audioDuration d = Some dur /\ num_le en dur = true))) /\
  validateTimeSegment (dialog_with false (s "0") (s "10") (Some (Fin 10 0))) = true /\
  validateTimeSegment (dialog_with false (s "0") (s "10.001") (Some (Fin 10 0))) = false /\
  validateTimeSegment (dialog_with false (s "5") (s "5") (Some (Fin 10 0))) = false /\
  validateTimeSegment (dialog_with false (s "-1") (s "5") (Some (Fin 10 0))) = false.
Proof.
  split; [|repeat split; reflexivity].
  intros d; unfold validateTimeSegment.
  destruct (Dialog.useFullAudio d).
  - split; [left; reflexivity | reflexivity].
  - rewrite segment_ok_iff; split.
    + intros H; right; split; [reflexivity | exact H].
    + intros [H | [_ H]]; [discriminate | exact H].
Qed.

(** ** The setters and the transcription request *)

Lemma or_zero_spec (x : num) :
  (num_truthy x = false -> or_zero x = Fin 0 0) /\
  (num_truthy x = true -> or_zero x = x) /\
  isNaN (or_zero x) = false.
Proof.
  unfold or_zero; destruct (num_truthy x) eqn:H; repeat split; try discriminate;
    try reflexivity.
  destruct x; simpl in *; congruence.
Qed.

(** C6 (counterexample): the start text "-5" parses to the negative number
    -5, which [handleCreate] stores as it is, not as 0. *)
Lemma create_keeps_negative_start :
  parseFloat (s "-5") = Fin (-5) 0 /\
  Analyzer.startTime
    (handleCreate (dialog_with false (s "-5") (s "9") None) Analyzer.initial)
  = Fin (-5) 0 /\
  num_lt (Fin (-5) 0) (Fin 0 0) = true.
Proof. repeat split; reflexivity. Qed.

(** C6 (amended): [handleTimeChange] stores the text of the field as it
    is, with no parsing and no failure; [handleCreate] stores
    [parseFloat(text) || 0]: 0 when the text has no numeric prefix ([NaN])
    or denotes zero, otherwise the parsed value itself (negative or infinite
    values included), never [NaN].  The text "abc" is stored as 0. *)
Theorem create_time_coercion :
  (forall (f : Dialog.field) (v : jsstr) (d : Dialog.t),
     Dialog.field_value f (Dialog.handleTimeChange f v d) = v) /\
  (forall (d : Dialog.t) (st : Analyzer.t),
     let ps := parseFloat (Dialog.startTime d) in
     let pe := parseFloat (Dialog.endTime d) in
     (num_truthy ps = false -> Analyzer.startTime (handleCreate d st) = Fin 0 0) /\
     (num_truthy ps = true -> Analyzer.startTime (handleCreate d st) = ps) /\
     isNaN (Analyzer.startTime (handleCreate d st)) = false /\
     (num_truthy pe = false -> Analyzer.endTime (handleCreate d st) = Fin 0 0) /\
     (num_truthy pe = true -> Analyzer.endTime (handleCreate d st) = pe) /\
     isNaN (Analyzer.endTime (handleCreate d st)) = false) /\
  parseFloat (s "abc") = NaN /\
  Analyzer.startTime
    (handleCreate
       (Dialog.handleTimeChange Dialog.FStart (s "abc") (dialog_with true (s "0") (s "0") None))
       Analyzer.initial) = Fin 0 0.
Proof.
  split; [|split; [|split; reflexivity]].
  - intros [|] v d; unfold Dialog.handleTimeChange;
      destruct (Dialog.useFullAudio d); reflexivity.
  - intros d st; simpl.
    destruct (or_zero_spec (parseFloat (Dialog.startTime d))) as (A1 & A2 & A3).
    destruct (or_zero_spec (parseFloat (Dialog.endTime d))) as (B1 & B2 & B3).
    repeat split; assumption.
Qed.

(** C7 (counterexample): with the duration not yet probed, checking
    "Use full audio" leaves the start field at "3" instead of forcing 0. *)
Lemma full_audio_unknown_duration_keeps_start :
  let d := Dialog.handleUseFullAudioChange true (dialog_with false (s "3") (s "9") None) in
  Dialog.useFullAudio d = true /\ Dialog.startTime d = s "3".
Proof. split; reflexivity. Qed.

(** C7 (amended): [handleUseFullAudioChange checked] stores [checked]; when
    [checked] is true and the duration is truthy (known, not 0, not [NaN])
    it sets the start field to "0" and the end field to the duration's
    [toString()]; otherwise (unchecking, or a duration unknown or falsy) both
    fields keep their text.  [handleTimeChange] always leaves [useFullAudio]
    false. *)
Theorem full_audio_and_range_setters :
  (forall (checked : bool) (d : Dialog.t),
     let d' := Dialog.handleUseFullAudioChange checked d in
     Dialog.useFullAudio d' = checked /\
     Dialog.audioDuration d' = Dialog.audioDuration d /\
     (checked = true -> opt_truthy (Dialog.audioDuration d) = true ->
      Dialog.startTime d' = s "0" /\
      exists dur, Dialog.audioDuration d = Some dur /\
                  Dialog.endTime d' = num_toString dur) /\
     (checked = false \/ opt_truthy (Dialog.audioDuration d) = false ->
      Dialog.startTime d' = Dialog.startTime d /\
      Dialog.endTime d' = Dialog.endTime d)) /\
  (forall (f : Dialog.field) (v : jsstr) (d : Dialog.t),
     Dialog.useFullAudio (Dialog.handleTimeChange f v d) = false).
Proof.
  split.
  - intros checked d; unfold Dialog.handleUseFullAudioChange; simpl.
    destruct (Dialog.audioDuration d) as [dur|] eqn:Hd; simpl.
    + destruct checked, (num_truthy dur) eqn:Ht; simpl;
        (split; [reflexivity|]); (split; [exact Hd|]); split;
        first [ intros _ _; split; [reflexivity | exists dur; split; reflexivity]
              | intros [H|H]; discriminate
              | intros _ H; discriminate
              | intros H; discriminate
              | intros _; split; reflexivity ].
    + split; [reflexivity|]; split; [exact Hd|]; split.
      * intros _ H; discriminate.
      * intros _; split; reflexivity.
  - intros f v d; unfold Dialog.handleTimeChange.
    destruct (Dialog.useFullAudio d) eqn:H; [reflexivity|].
    destruct f; exact H.
Qed.

(** C8 (counterexample): a dialog with full audio off, start "5" and end
    "2" fails [validateTimeSegment], yet Create is enabled and the
    Transcribe click then posts the explicit pair (5, 2), which fails the
    same checks. *)
Lemma transcribe_posts_invalid_range :
  let d := dialog_with false (s "5") (s "2") (Some (Fin 10 0)) in
  validateTimeSegment d = false /\
  exists st req,
    clickCreate d Analyzer.initial = Some st /\
    clickTranscribe (fun p => Some p) st = Some req /\
    req_useFullAudio req = false /\
    req_startTime req = Fin 5 0 /\ req_endTime req = Fin 2 0 /\
    segment_ok (req_startTime req) (req_endTime req) (Analyzer.audioDuration st) = false.
Proof.
  split; [reflexivity|].
  eexists; eexists; split; [reflexivity|]; split; [reflexivity|].
  repeat split; reflexivity.
Qed.

(** C8 (amended): the transcription request is gated by [canTranscribe]
    (a non-empty audio path, the model loaded, no transcription in
    progress), not by [validateTimeSegment]: a request is posted exactly
    when [canTranscribe] holds and, for a [blob:] path, the upload of the
    blob succeeds; the request carries the state's [useFullAudio],
    [startTime] and [endTime] as [handleCreate] stored them
    ([parseFloat(text) || 0]), whether or not they pass the segment
    checks. *)
Theorem transcribe_gated_by_canTranscribe :
  forall (upload : jsstr -> option jsstr) (st : Analyzer.t),
    (clickTranscribe upload st <> None <->
       canTranscribe st = true /\
       forall p, Analyzer.audioFilePath st = Some p -> prefixb (s "blob:") p = true ->
                 upload p <> None) /\
    (forall req, clickTranscribe upload st = Some req ->
       req_useFullAudio req = Analyzer.useFullAudio st /\
       req_startTime req = Analyzer.startTime st /\
       req_endTime req = Analyzer.endTime st /\
       req_includeWordTimestamps req = true) /\
    (forall (d : Dialog.t) (st0 : Analyzer.t), handleCreate d st0 = st ->
       Analyzer.useFullAudio st = Dialog.useFullAudio d /\
       Analyzer.startTime st = or_zero (parseFloat (Dialog.startTime d)) /\
       Analyzer.endTime st = or_zero (parseFloat (Dialog.endTime d))).
Proof.
  intros upload st; split; [|split].
  - unfold clickTranscribe, canTranscribe, handleTranscribe.
    destruct (Analyzer.audioFilePath st) as [[|c p]|]; cbn [str_truthy andb];
      try (split; [intros H; exfalso; apply H; reflexivity | intros [H _]; discriminate]).
    destruct (Analyzer.modelLoaded st), (Analyzer.isTranscribing st); cbn [andb negb];
      try (split; [intros H; exfalso; apply H; reflexivity | intros [H _]; discriminate]).
    destruct (prefixb (s "blob:") (c :: p)) eqn:Hb.
    + destruct (upload (c :: p)) eqn:Hu.
      * split; [|intros _; discriminate].
        intros _; split; [reflexivity|].
        intros p0 E _; injection E as <-; rewrite Hu; discriminate.
      * split; [intros H; exfalso; apply H; reflexivity|].
        intros [_ H]; exfalso; exact (H (c :: p) eq_refl Hb Hu).
    + split; [|intros _; discriminate].
      intros _; split; [reflexivity|].
      intros p0 E Hb'; injection E as <-; congruence.
  - intros req; unfold clickTranscribe, handleTranscribe.
    destruct (canTranscribe st); [|discriminate].
    destruct (Analyzer.audioFilePath st) as [[|c p]|]; try discriminate.
    destruct (prefixb (s "blob:") (c :: p)); [destruct (upload (c :: p)); [|discriminate]|];
      intros H; injection H as <-; repeat split.
  - intros d st0 <-; repeat split.
Qed.

(** C5 (counterexample): the empty query is a substring of every word, but
    an empty (post-trim) query gives no result at all. *)
Lemma search_empty_query_substring :
  includes (toLowerCase (s "hello")) (toLowerCase []) = true /\
  search [] [mkWT (s "hello") 1 (3 # 2)] = [].
Proof. split; reflexivity. Qed.

(** C5 (amended): for a word [W] and a query [Q] that is not empty after
    trimming and whose lower case is a substring of the lower case of [W],
    the search of [Q] over [[{W, 1.0, 1.5}]] returns exactly one result,
    whose word is [W] (original casing), with index 1; a query that is
    empty after trimming returns no result. *)
Theorem search_single_word :
  (forall (W Q : jsstr),
     includes (toLowerCase W) (toLowerCase Q) = true -> trim Q <> [] ->
     search Q [mkWT W 1 (3 # 2)] = [mkSR W 1 (3 # 2) 1]) /\
  (forall (W Q : jsstr), trim Q = [] -> search Q [mkWT W 1 (3 # 2)] = []).
Proof.
  split.
  - intros W Q Hsub Hne.
    assert (Hm : includes (toLowerCase W) (toLowerCase (trim Q)) = true).
    { apply (includes_trans _ (toLowerCase Q)); [exact Hsub|].
      apply includes_map, includes_spec, trim_infix. }
    unfold search, handleSearch.
    destruct (toLowerCase (trim Q)) as [|c t] eqn:Ht.
    + apply (proj1 (toLowerCase_nil_iff _)) in Ht; contradiction.
    + simpl; rewrite Hm; reflexivity.
  - intros W Q Hq; unfold search, handleSearch; rewrite Hq; reflexivity.
Qed.

Lemma search_single_word_witness :
  (includes (toLowerCase (s "Hello world")) (toLowerCase (s "LO ")) = true /\
   search (s "LO ") [mkWT (s "Hello world") 1 (3 # 2)]
   = [mkSR (s "Hello world") 1 (3 # 2) 1]) /\
  (trim (s " ") = [] /\ search (s " ") [mkWT (s "Hello world") 1 (3 # 2)] = []).
Proof.
  split; (split; [reflexivity|]).
  - apply (proj1 search_single_word); [reflexivity | vm_compute; discriminate].
  - apply (proj2 search_single_word); reflexivity.
Defined.

(** C2 (counterexample): the key of the de-duplication is [start.toFixed(1)],
    so two matches 0.02 s apart whose starts round to different tenths are
    both kept. *)
Lemma search_keeps_close_starts :
  map sr_start (search (s "hi") [mkWT (s "hi") (104 # 100) (12 # 10);
                                 mkWT (s "hi") (106 # 100) (13 # 10)])
  = [(104 # 100)%Q; (106 # 100)%Q] /\
  Qlt_bool ((106 # 100) - (104 # 100))%Q (1 # 10) = true.
Proof. split; reflexivity. Qed.

(** C2 (amended): no two results of one search have starts with the same
    [toFixed(1)] rendering (start rounded to 0.1 s); the matches are scanned
    in the stored order and a match is kept exactly when no earlier match
    had the same rounded start, except that the results stop at 50: a first
    match with a new rounded start is a result unless 50 results from
    earlier words are already kept.  On [[{hi, 1.00, 1.2}, {hi, 1.04, 1.3}]]
    the query "hi" gives exactly one result. *)
Theorem search_dedup_by_rounded_start :
  (forall (q : jsstr) (ws : list WordTimestamp),
     NoDup (map result_key (search q ws))) /\
  (forall (q : jsstr) (ws : list WordTimestamp) (r : SearchResult),
     In r (search q ws) ->
     (exists w, nth_error ws (sr_index r - 1) = Some w /\ sr_start r = start w /\
                includes (toLowerCase (word w)) (toLowerCase (trim q)) = true) /\
     forall j w, (j < sr_index r - 1)%nat -> nth_error ws j = Some w ->
       includes (toLowerCase (word w)) (toLowerCase (trim q)) = true ->
       toFixed1 (start w) <> toFixed1 (sr_start r)) /\
  (forall (q : jsstr) (ws : list WordTimestamp) (j : nat) (w : WordTimestamp),
     trim q <> [] -> nth_error ws j = Some w ->
     includes (toLowerCase (word w)) (toLowerCase (trim q)) = true ->
     (forall j' w', (j' < j)%nat -> nth_error ws j' = Some w' ->
        includes (toLowerCase (word w')) (toLowerCase (trim q)) = true ->
        toFixed1 (start w') <> toFixed1 (start w)) ->
     In (mkSR (word w) (start w) (end_ w) (S j)) (search q ws) \/
     (List.length (search q ws) = 50%nat /\
      Forall (fun r => (sr_index r < S j)%nat) (search q ws))) /\
  List.length (search (s "hi") [mkWT (s "hi") 1 (12 # 10); mkWT (s "hi") (104 # 100) (13 # 10)])
  = 1%nat.
Proof.
  split; [|split; [|split; [|reflexivity]]].
  - intros q ws; unfold search, handleSearch.
    destruct (toLowerCase (trim q)) as [|c t]; [constructor|].
    destruct ws as [|w ws]; [constructor|].
    change (NoDup (map result_key (firstn 50 (scan (c :: t) [] 0 (w :: ws))))).
    rewrite <- firstn_map; apply nodup_firstn, scan_nodup.
  - intros q ws r Hr.
    destruct (scan_first_seen _ _ _ _ _ (search_from_scan _ _ _ Hr))
      as (_ & j & w & Hj & Hi & Hst & Hm & Hfirst).
    rewrite Hi; replace (0 + j + 1 - 1)%nat with j by lia.
    split; [exists w; repeat split; assumption|].
    exact Hfirst.
  - intros q ws j w Hq Hj Hm Hfirst.
    pose proof (scan_keeps_first _ [] 0 ws j w Hj Hm (fun H => H) Hfirst) as Hin.
    replace (0 + j + 1)%nat with (S j) in Hin by lia.
    assert (Hs : search q ws = firstn 50 (scan (toLowerCase (trim q)) [] 0 ws)).
    { unfold search, handleSearch.
      destruct (toLowerCase (trim q)) as [|c t] eqn:Ht;
        [apply (proj1 (toLowerCase_nil_iff _)) in Ht; contradiction|].
      destruct ws as [|w0 ws]; [destruct j; discriminate | reflexivity]. }
    rewrite Hs.
    exact (firstn_in_or_full _ 50 _ _ (scan_indices_sorted _ _ _ _) Hin).
Qed.

Lemma search_dedup_by_rounded_start_witness :
  NoDup (map result_key (search (s "hi") (hits 75 (1 # 100)))) /\
  (In (mkSR (s "hi") (3 # 2) 2 3)
      (search (s "hi") [mkWT (s "hi") 1 (12 # 10); mkWT (s "hi") (104 # 100) (13 # 10);
                        mkWT (s "hi") (3 # 2) 2]) \/
   (List.length (search (s "hi") [mkWT (s "hi") 1 (12 # 10); mkWT (s "hi") (104 # 100) (13 # 10);
                                  mkWT (s "hi") (3 # 2) 2]) = 50%nat /\
    Forall (fun r => (sr_index r < 3)%nat)
      (search (s "hi") [mkWT (s "hi") 1 (12 # 10); mkWT (s "hi") (104 # 100) (13 # 10);
                        mkWT (s "hi") (3 # 2) 2]))).
Proof.
  split; [exact (proj1 search_dedup_by_rounded_start _ _)|].
  apply (proj1 (proj2 (proj2 search_dedup_by_rounded_start)) (s "hi")
           [mkWT (s "hi") 1 (12 # 10); mkWT (s "hi") (104 # 100) (13 # 10);
            mkWT (s "hi") (3 # 2) 2] 2 (mkWT (s "hi") (3 # 2) 2));
    [vm_compute; discriminate | reflexivity | reflexivity|].
  intros [|[|j']] w' Hlt Hn _; try lia; injection Hn as <-; vm_compute; discriminate.
Defined.

(** C3 (counterexample): 75 occurrences of "hi" starting every 0.01 s all
    match "hi", but their starts round to only 8 distinct tenths, so the
    search returns 8 results, not 50. *)
Lemma search_75_close_matches :
  List.length (hits 75 (1 # 100)) = 75%nat /\
  forallb (fun w => includes (toLowerCase (word w)) (s "hi")) (hits 75 (1 # 100)) = true /\
  List.length (search (s "hi") (hits 75 (1 # 100))) = 8%nat.
Proof. vm_compute; repeat split. Qed.

(** C3 (amended): a search returns at most 50 results, silently dropping
    the rest.  Given at least 50 (e.g. 75) timestamps that all match a
    non-empty query and whose starts have pairwise distinct [toFixed(1)]
    renderings, it returns exactly 50 results: the first 50 timestamps, with
    indices 1..50, hence in ascending start order when the timestamps are. *)
Theorem search_capped_at_50 :
  (forall (q : jsstr) (ws : list WordTimestamp),
     (List.length (search q ws) <= 50)%nat) /\
  (forall (q : jsstr) (ws : list WordTimestamp),
     trim q <> [] ->
     Forall (fun w => includes (toLowerCase (word w)) (toLowerCase (trim q)) = true) ws ->
     NoDup (map (fun w => toFixed1 (start w)) ws) ->
     (50 <= List.length ws)%nat ->
     List.length (search q ws) = 50%nat /\
     search q ws = to_results 0 (firstn 50 ws) /\
     map sr_start (search q ws) = firstn 50 (map start ws) /\
     (Sorted Qle (map start ws) -> Sorted Qle (map sr_start (search q ws)))).
Proof.
  split.
  - intros q ws; unfold search, handleSearch.
    destruct (toLowerCase (trim q)) as [|c t]; [simpl; lia|].
    destruct ws as [|w ws]; [simpl; lia|].
    apply firstn_le_length.
  - intros q ws Hne Hm Hnd Hlen.
    assert (Hs : search q ws = firstn 50 (to_results 0 ws)).
    { unfold search, handleSearch.
      destruct (toLowerCase (trim q)) as [|c t] eqn:Ht.
      - apply (proj1 (toLowerCase_nil_iff _)) in Ht; contradiction.
      - destruct ws as [|w ws]; [simpl in Hlen; lia|].
        change (firstn 50 (scan (c :: t) [] 0 (w :: ws)) = firstn 50 (to_results 0 (w :: ws))).
        rewrite scan_all_kept; [reflexivity | exact Hm | exact Hnd | intros w' _ []]. }
    assert (Hf : forall n i l, firstn n (to_results i l) = to_results i (firstn n l)).
    { induction n as [|n IH]; intros i [|w l]; simpl; try reflexivity.
      rewrite IH; reflexivity. }
    assert (Hst : map sr_start (search q ws) = firstn 50 (map start ws)).
    { rewrite Hs, Hf, to_results_starts, firstn_map; reflexivity. }
    split; [|split; [|split]].
    + rewrite Hs, Hf, to_results_length, length_firstn; lia.
    + rewrite Hs; apply Hf.
    + exact Hst.
    + intros Hsort; rewrite Hst; apply sorted_firstn; exact Hsort.
Qed.

Lemma search_capped_at_50_witness :
  List.length (search (s "hi") (hits 75 (1 # 2))) = 50%nat.
Proof.
  apply (proj2 search_capped_at_50).
  - vm_compute; intros H; discriminate H.
  - apply Forall_forall, forallb_forall; vm_compute; reflexivity.
  - apply tkeys_nodupb_spec; vm_compute; reflexivity.
  - apply Nat.leb_le; vm_compute; reflexivity.
Defined.

(** * Further properties of the code *)

(** ** [handleSearchWord] *)

Lemma filter_index_incl {A} (f : A -> nat -> bool) (l : list A) (i : nat) (x : A) :
  In x (filter_index f l i) -> In x l.
Proof.
  revert i; induction l as [|z l IH]; intros i H; simpl in H; [contradiction|].
  destruct (f z i); [destruct H as [<-|H]; [left; reflexivity|] |]; right; exact (IH _ H).
Qed.

(** The shape of [handleSearchWord] once the guard is passed. *)
Lemma handleSearchWord_unfold (q : jsstr) (ws : list WordTimestamp) :
  handleSearchWord q ws = [] \/
  let matches := filter (fun w => includes (toLowerCase (word w)) (trim (toLowerCase q))) ws in
  handleSearchWord q ws =
    firstn 50 (filter_index (fun m i => Z.eqb (Z.of_nat i)
                 (findIndex (fun m' => closeTo m' m) matches)) matches 0).
Proof.
  unfold handleSearchWord.
  destruct (is_empty (trim q) || is_empty ws); [left; reflexivity | right; reflexivity].
Qed.

Theorem handleSearchWord_results_are_matches (q : jsstr) (ws : list WordTimestamp) :
  (List.length (handleSearchWord q ws) <= 50)%nat /\
  forall r, In r (handleSearchWord q ws) ->
    In r ws /\ includes (toLowerCase (word r)) (trim (toLowerCase q)) = true.
Proof.
  destruct (handleSearchWord_unfold q ws) as [He|He]; rewrite He.
  - split; [simpl; lia | intros r []].
  - split; [apply firstn_le_length|].
    intros r Hr; apply in_firstn_in, filter_index_incl, filter_In in Hr; exact Hr.
Qed.

Lemma handleSearchWord_results_are_matches_witness :
  In (mkWT (s "hi") 0 (1 # 100)) (handleSearchWord (s " HI ") (hits 2 1)) /\
  In (mkWT (s "hi") 0 (1 # 100)) (hits 2 1) /\
  includes (toLowerCase (s "hi")) (trim (toLowerCase (s " HI "))) = true.
Proof.
  assert (H : In (mkWT (s "hi") 0 (1 # 100)) (handleSearchWord (s " HI ") (hits 2 1)))
    by (vm_compute; left; reflexivity).
  split; [exact H|].
  exact (proj2 (handleSearchWord_results_are_matches (s " HI ") (hits 2 1)) _ H).
Defined.

Lemma closeTo_refl (w : WordTimestamp) : closeTo w w = true.
Proof.
  unfold closeTo, Qlt_bool; apply negb_true_iff.
  destruct (Qle_bool (1 # 10) (Qabs (start w - start w))) eqn:E; [|reflexivity].
  apply Qle_bool_iff in E; unfold Qminus in E; rewrite Qplus_opp_r in E.
  exfalso; apply E; reflexivity.
Qed.

(** The first word containing the term is always found. *)
Theorem handleSearchWord_keeps_first_match (q : jsstr) (ws : list WordTimestamp)
    (w : WordTimestamp) :
  trim q <> [] ->
  hd_error (filter (fun w' => includes (toLowerCase (word w')) (trim (toLowerCase q))) ws)
    = Some w ->
  hd_error (handleSearchWord q ws) = Some w.
Proof.
  intros Hq Hw; unfold handleSearchWord.
  destruct (trim q) as [|c t]; [contradiction|].
  destruct ws as [|w0 ws]; [discriminate|].
  cbv zeta; cbn [is_empty orb].
  destruct (filter _ (w0 :: ws)) as [|w1 rest]; [discriminate|].
  injection Hw as ->; simpl; unfold findIndex; simpl; rewrite closeTo_refl; reflexivity.
Qed.

Lemma handleSearchWord_keeps_first_match_witness :
  hd_error (handleSearchWord (s "Person") transcript) = Some (mkWT (s "person") 1 (14 # 10)).
Proof.
  apply handleSearchWord_keeps_first_match;
    [vm_compute; intros H; discriminate H | vm_compute; reflexivity].
Defined.

(** ** [formatTimestamp] *)

Lemma Qfloor_unique (x : Q) (z : Z) :
  (inject_Z z <= x)%Q -> (x < inject_Z (z + 1))%Q -> Qfloor x = z.
Proof.
  intros H1 H2.
  assert (A : (Qfloor x < z + 1)%Z).
  { rewrite Zlt_Qlt; exact (Qle_lt_trans _ _ _ (Qfloor_le x) H2). }
  assert (B : (z < Qfloor x + 1)%Z).
  { rewrite Zlt_Qlt; exact (Qle_lt_trans _ _ _ H1 (Qlt_floor x)). }
  lia.
Qed.

(** The two characters [padStart(2, '0')] gives for [0 <= k < 100]. *)
Lemma two_digits (k : Z) :
  (0 <= k < 100)%Z ->
  padStart 2 (num_toString (Fin k 0)) =
    [digit_char (Z.to_nat (k / 10)); digit_char (Z.to_nat (k mod 10))].
Proof.
  intros Hk.
  assert (Hall : forallb (fun n =>
      if list_eq_dec ascii_dec (padStart 2 (num_toString (Fin (Z.of_nat n) 0)))
           [digit_char (Z.to_nat (Z.of_nat n / 10)); digit_char (Z.to_nat (Z.of_nat n mod 10))]
      then true else false) (seq 0 100) = true) by (vm_compute; reflexivity).
  rewrite forallb_forall in Hall.
  specialize (Hall (Z.to_nat k)); rewrite Z2Nat.id in Hall by lia.
  destruct (list_eq_dec _ _ _) as [E|E]; [exact E|].
  discriminate Hall; apply in_seq; lia.
Qed.

(** Below 100 minutes, [formatTimestamp] shows two digits of minutes and two
    of seconds, and they spell the whole seconds of the time. *)
Theorem formatTimestamp_mm_ss (seconds : Q) :
  (0 <= seconds)%Q -> (seconds < 6000)%Q ->
  exists m1 m2 s1 s2 : nat,
    (m1 < 10 /\ m2 < 10 /\ s1 < 6 /\ s2 < 10)%nat /\
    formatTimestamp seconds =
      [digit_char m1; digit_char m2; ":"%char; digit_char s1; digit_char s2] /\
    Z.of_nat (600 * m1 + 60 * m2 + 10 * s1 + s2) = Qfloor seconds.
Proof.
  intros H0 H1.
  unfold formatTimestamp, js_mod, Qtrunc.
  change (seconds / 60)%Q with (seconds * (1 # 60))%Q.
  set (m := Qfloor (seconds * (1 # 60))).
  assert (Hm1 := Qfloor_le (seconds * (1 # 60))); fold m in Hm1.
  assert (Hm2 := Qlt_floor (seconds * (1 # 60))); fold m in Hm2.
  rewrite inject_Z_plus in Hm2; change (inject_Z 1) with 1%Q in Hm2.
  assert (Hm : (0 <= m < 100)%Z).
  { split.
    - assert (Hp : (0 <= seconds * (1 # 60))%Q) by lra.
      apply Qfloor_resp_le in Hp; exact Hp.
    - rewrite Zlt_Qlt; change (inject_Z 100) with 100%Q; lra. }
  assert (Hneg : Qlt_bool (seconds * (1 # 60)) 0 = false).
  { unfold Qlt_bool; apply negb_false_iff, Qle_bool_iff; lra. }
  rewrite Hneg.
  set (f := Qfloor seconds).
  assert (Hf1 := Qfloor_le seconds); fold f in Hf1.
  assert (Hf2 := Qlt_floor seconds); fold f in Hf2.
  rewrite inject_Z_plus in Hf2; change (inject_Z 1) with 1%Q in Hf2.
  assert (Hs : Qfloor (seconds - 60 * inject_Z m) = (f - 60 * m)%Z).
  { apply Qfloor_unique; unfold Z.sub;
      rewrite ?inject_Z_plus, ?inject_Z_opp, ?inject_Z_mult; change (inject_Z 60) with 60%Q;
      change (inject_Z 1) with 1%Q; lra. }
  rewrite Hs.
  assert (Hlo : (60 * m <= f)%Z).
  { rewrite Zle_Qle, inject_Z_mult; change (inject_Z 60) with 60%Q.
    apply Qnot_lt_le; intros Hc.
    assert (Hc' : (f + 1 <= 60 * m)%Z).
    { apply Zlt_le_succ; rewrite Zlt_Qlt, inject_Z_mult; exact Hc. }
    rewrite Zle_Qle, inject_Z_plus, inject_Z_mult in Hc'.
    change (inject_Z 60) with 60%Q in Hc'; change (inject_Z 1) with 1%Q in Hc'; lra. }
  assert (Hhi : (f < 60 * m + 60)%Z).
  { rewrite Zlt_Qlt, inject_Z_plus, inject_Z_mult; change (inject_Z 60) with 60%Q; lra. }
  rewrite (two_digits m) by lia; rewrite (two_digits (f - 60 * m)) by lia.
  exists (Z.to_nat (m / 10)), (Z.to_nat (m mod 10)),
         (Z.to_nat ((f - 60 * m) / 10)), (Z.to_nat ((f - 60 * m) mod 10)).
  split; [|split; [reflexivity|]].
  - split; [|split; [|split]]; apply Nat2Z.inj_lt;
      rewrite Z2Nat.id; Z.div_mod_to_equations; lia.
  - rewrite !Nat2Z.inj_add, !Nat2Z.inj_mul, !Z2Nat.id;
      Z.div_mod_to_equations; lia.
Qed.

Lemma formatTimestamp_mm_ss_witness :
  formatTimestamp (125 # 2) = s "01:02" /\
  exists m1 m2 s1 s2 : nat,
    (m1 < 10 /\ m2 < 10 /\ s1 < 6 /\ s2 < 10)%nat /\
    formatTimestamp (125 # 2) =
      [digit_char m1; digit_char m2; ":"%char; digit_char s1; digit_char s2] /\
    Z.of_nat (600 * m1 + 60 * m2 + 10 * s1 + s2) = Qfloor (125 # 2).
Proof.
  split; [vm_compute; reflexivity|].
  apply formatTimestamp_mm_ss; lra.
Defined.

(** ** [getHighlightedText] *)

Lemma regex_special_backslash (c : ascii) :
  Ascii.eqb c "\" = true -> regex_special c = true.
Proof. intros H; apply Ascii.eqb_eq in H; subst c; reflexivity. Qed.

(** The escaped term, read back as a regular expression, matches exactly the
    term itself. *)
Theorem regex_literal_escapeRegExp (searchTerm : jsstr) :
  regex_literal (escapeRegExp searchTerm) = Some searchTerm.
Proof.
  induction searchTerm as [|c t IH]; [reflexivity|].
  unfold escapeRegExp; simpl flat_map; fold (escapeRegExp t).
  destruct (regex_special c) eqn:Hs; simpl.
  - rewrite Hs, IH; reflexivity.
  - destruct (Ascii.eqb c "\") eqn:Hb.
    + rewrite (regex_special_backslash c Hb) in Hs; discriminate.
    + rewrite Hs, IH; reflexivity.
Qed.

(** A piece of the highlighted text: a character left as is, or a match
    wrapped in the highlighting span. *)
Inductive chunk : Type :=
| Plain (c : ascii)
| Hit (m : jsstr).

Definition chunk_text (ch : chunk) : jsstr :=
  match ch with Plain c => [c] | Hit m => m end.

Definition chunk_html (ch : chunk) : jsstr :=
  match ch with Plain c => [c] | Hit m => span_open ++ m ++ span_close end.

(** Every [Hit] is the term up to case, and the term (up to case) starts at
    no [Plain] character. *)
Fixpoint highlight_ok (term : jsstr) (cs : list chunk) : Prop :=
  match cs with
  | [] => True
  | Plain c :: cs' =>
      prefix_ci term (c :: List.concat (map chunk_text cs')) = false /\ highlight_ok term cs'
  | Hit m :: cs' =>
      List.length m = List.length term /\ prefix_ci term m = true /\ highlight_ok term cs'
  end.

Lemma prefix_ci_length (p x : jsstr) :
  prefix_ci p x = true -> (List.length p <= List.length x)%nat.
Proof.
  revert x; induction p as [|a p IH]; intros [|b x] H; simpl in H |- *;
    try lia; try discriminate.
  apply andb_prop in H; specialize (IH x (proj2 H)); lia.
Qed.

Lemma prefix_ci_firstn (p x : jsstr) :
  prefix_ci p x = true -> prefix_ci p (firstn (List.length p) x) = true.
Proof.
  revert x; induction p as [|a p IH]; intros [|b x] H; simpl in H |- *;
    try reflexivity; try discriminate.
  apply andb_prop in H; rewrite (proj1 H), (IH x (proj2 H)); reflexivity.
Qed.

Lemma replace_ci_chunks (fuel : nat) (lit t : jsstr) :
  lit <> [] -> (List.length t <= fuel)%nat ->
  exists cs, replace_ci fuel lit t = List.concat (map chunk_html cs) /\
             List.concat (map chunk_text cs) = t /\ highlight_ok lit cs.
Proof.
  intros Hlit; revert t; induction fuel as [|f IH]; intros t Hlen.
  - destruct t; [|simpl in Hlen; lia].
    exists []; repeat split.
  - destruct t as [|c r]; [exists []; repeat split|].
    simpl replace_ci.
    destruct (prefix_ci lit (c :: r)) eqn:Hp.
    + assert (Hl := prefix_ci_length _ _ Hp).
      destruct lit as [|a lit']; [contradiction|].
      destruct (IH (skipn (List.length (a :: lit')) (c :: r))) as (cs & H1 & H2 & H3).
      { rewrite length_skipn; simpl in Hlen |- *; lia. }
      exists (Hit (firstn (List.length (a :: lit')) (c :: r)) :: cs).
      split; [|split].
      * simpl List.concat; simpl chunk_html; rewrite H1, <- !app_assoc; reflexivity.
      * change (firstn (List.length (a :: lit')) (c :: r) ++ List.concat (map chunk_text cs)
          = c :: r).
        rewrite H2; apply firstn_skipn.
      * cbn [highlight_ok]; split; [rewrite length_firstn; lia|].
        split; [exact (prefix_ci_firstn _ _ Hp) | exact H3].
    + destruct (IH r) as (cs & H1 & H2 & H3); [simpl in Hlen; lia|].
      exists (Plain c :: cs); split; [|split].
      * simpl; rewrite H1; reflexivity.
      * simpl; rewrite H2; reflexivity.
      * simpl; rewrite H2; split; [exact Hp | exact H3].
Qed.

Lemma is_empty_false {A} (l : list A) : l <> [] -> is_empty l = false.
Proof. destruct l; [contradiction | reflexivity]. Qed.

(** Erasing the highlighting gives back the text; every highlighted piece is
    the term up to case, and the term starts at no character left plain. *)
Theorem getHighlightedText_marks_term (text searchTerm : jsstr) :
  searchTerm <> [] -> text <> [] ->
  exists cs, getHighlightedText text searchTerm = List.concat (map chunk_html cs) /\
             List.concat (map chunk_text cs) = text /\ highlight_ok searchTerm cs.
Proof.
  intros Ht Hx; unfold getHighlightedText.
  rewrite (is_empty_false _ Ht), (is_empty_false _ Hx), regex_literal_escapeRegExp.
  apply replace_ci_chunks; [exact Ht | lia].
Qed.

Lemma getHighlightedText_marks_term_witness :
  getHighlightedText (s "Hi, hi!") (s "hi") =
    List.concat (map chunk_html [Hit (s "Hi"); Plain ","%char; Plain " "%char;
                                 Hit (s "hi"); Plain "!"%char]) /\
  exists cs, getHighlightedText (s "Hi, hi!") (s "hi") = List.concat (map chunk_html cs) /\
             List.concat (map chunk_text cs) = s "Hi, hi!" /\ highlight_ok (s "hi") cs.
Proof.
  split; [vm_compute; reflexivity|].
  apply getHighlightedText_marks_term; vm_compute; intros H; discriminate H.
Defined.

Lemma replace_ci_no_match (fuel : nat) (lit t : jsstr) :
  (forall a b, t = a ++ b -> prefix_ci lit b = false) -> replace_ci fuel lit t = t.
Proof.
  revert t; induction fuel as [|f IH]; intros t H; [reflexivity|].
  destruct t as [|c r]; [reflexivity|]; simpl.
  rewrite (H [] (c :: r) eq_refl), IH; [reflexivity|].
  intros a b ->; apply (H (c :: a) b); reflexivity.
Qed.

(** A text in which the term does not occur (up to case) is shown as is. *)
Theorem getHighlightedText_no_match (text searchTerm : jsstr) :
  text <> [] ->
  (forall a b, text = a ++ b -> prefix_ci searchTerm b = false) ->
  getHighlightedText text searchTerm = text.
Proof.
  intros Hx Hn; unfold getHighlightedText; rewrite (is_empty_false _ Hx), orb_false_r.
  destruct (is_empty searchTerm); [reflexivity|].
  rewrite regex_literal_escapeRegExp; apply replace_ci_no_match; exact Hn.
Qed.

(** A decision procedure for the hypothesis of the previous theorem. *)
Fixpoint no_occurrence (lit t : jsstr) : bool :=
  negb (prefix_ci lit t) && match t with [] => true | _ :: r => no_occurrence lit r end.

Lemma no_occurrence_spec (lit t : jsstr) :
  no_occurrence lit t = true -> forall a b, t = a ++ b -> prefix_ci lit b = false.
Proof.
  intros H a; revert t H; induction a as [|c a IH]; intros t H b Ht; subst t.
  - destruct b; simpl in H; apply andb_prop in H; apply negb_true_iff, H.
  - simpl in H; apply andb_prop in H; exact (IH _ (proj2 H) b eq_refl).
Qed.

Lemma getHighlightedText_no_match_witness :
  getHighlightedText (s "Hello, world") (s "xyz") = s "Hello, world".
Proof.
  apply getHighlightedText_no_match;
    [vm_compute; intros H; discriminate H | apply no_occurrence_spec; vm_compute; reflexivity].
Defined.

(** ** [wordCount] *)

Lemma split_char_not_nil (sep : ascii) (x : jsstr) : split_char sep x <> [].
Proof.
  destruct x as [|c r]; simpl; [discriminate|].
  destruct (Ascii.eqb c sep); [discriminate|].
  destruct (split_char sep r); discriminate.
Qed.

Lemma split_char_app (sep : ascii) (x y : jsstr) :
  split_char sep (x ++ sep :: y) = split_char sep x ++ split_char sep y.
Proof.
  induction x as [|c x IH]; simpl.
  - rewrite Ascii.eqb_refl; reflexivity.
  - rewrite IH; destruct (Ascii.eqb c sep); [reflexivity|].
    destruct (split_char sep x) as [|p ps] eqn:E; [exfalso; exact (split_char_not_nil sep x E)|].
    reflexivity.
Qed.

Lemma split_char_no_sep (sep : ascii) (x : jsstr) :
  ~ In sep x -> split_char sep x = [x].
Proof.
  induction x as [|c x IH]; intros H; [reflexivity|]; simpl.
  destruct (Ascii.eqb c sep) eqn:E.
  - apply Ascii.eqb_eq in E; subst; exfalso; apply H; left; reflexivity.
  - rewrite IH; [reflexivity | intros Hi; apply H; right; exact Hi].
Qed.

Lemma wordCount_split (x : jsstr) :
  wordCount x =
    List.length (filter (fun word => negb (is_empty word)) (split_char " " x)).
Proof. destruct x; reflexivity. Qed.

(** Words are the pieces between single spaces: the count is additive over a
    space, and a nonempty text without a space (for instance two lines with
    no space between them) is one word. *)
Theorem wordCount_spaces_only (x y : jsstr) :
  wordCount (x ++ " "%char :: y) = (wordCount x + wordCount y)%nat /\
  (x <> [] -> ~ In " "%char x -> wordCount x = 1%nat).
Proof.
  split.
  - rewrite !wordCount_split, split_char_app, filter_app, length_app; reflexivity.
  - intros Hx Hs; rewrite wordCount_split, split_char_no_sep by exact Hs.
    simpl; rewrite (is_empty_false _ Hx); reflexivity.
Qed.

Lemma wordCount_spaces_only_witness :
  wordCount (s "one  two") = 2%nat /\
  wordCount [ "o"%char; "n"%char; "e"%char; ascii_of_nat 10; "t"%char; "w"%char; "o"%char ]
    = 1%nat.
Proof.
  split; [vm_compute; reflexivity|].
  apply (proj2 (wordCount_spaces_only _ [])); [intros H; discriminate H|].
  intros H; vm_compute in H; repeat (destruct H as [H|H]; [discriminate H|]); exact H.
Defined.

(** ** The number of clusters *)

Lemma parseInt_shape (x : jsstr) : parseInt x = NaN \/ exists n, parseInt x = Fin n 0.
Proof.
  unfold parseInt.
  destruct (match trim_start x with
            | c :: r => if (c =? "-")%char then (true, r)
                        else if (c =? "+")%char then (false, r) else (false, c :: r)
            | [] => (false, []) end) as [neg s1].
  destruct (match s1 with
            | c :: c' :: r =>
                if (c =? "0")%char && ((c' =? "x")%char || (c' =? "X")%char) then (true, r)
                else (false, s1)
            | _ => (false, s1) end) as [hex s2].
  destruct (span_radix hex s2) as [[|d ds] r]; [left; reflexivity | right; eexists; reflexivity].
Qed.

Lemma num_lt_int (a b : Z) : num_lt (Fin a 0) (Fin b 0) = (a <? b)%Z.
Proof.
  unfold num_lt, Qlt_bool, Qle_bool, fin_val, pow10; simpl.
  rewrite !Z.mul_1_r, Z.ltb_antisym; reflexivity.
Qed.

Lemma Math_min_int (a b : Z) : Math_min (Fin a 0) (Fin b 0) = Fin (Z.min a b) 0.
Proof.
  unfold Math_min; cbn [isNaN orb]; rewrite num_lt_int.
  destruct (Z.ltb_spec b a); f_equal; lia.
Qed.

Lemma Math_max_int (a b : Z) : Math_max (Fin a 0) (Fin b 0) = Fin (Z.max a b) 0.
Proof.
  unfold Math_max; cbn [isNaN orb]; rewrite num_lt_int.
  destruct (Z.ltb_spec a b); f_equal; lia.
Qed.

(** The answer of the prompt is read by [parseInt]: an unreadable or zero
    answer (and a cancelled or empty prompt) gives 5, any other integer is
    clamped to [2, 10]. *)
Theorem numClusters_value (clusters : option jsstr) :
  numClusters clusters =
    Fin (match clusters with
         | Some ((_ :: _) as c) =>
             match parseInt c with
             | Fin n _ => if (n =? 0)%Z then 5 else Z.max 2 (Z.min 10 n)
             | _ => 5
             end
         | _ => 5
         end) 0.
Proof.
  destruct clusters as [[|a r]|]; try reflexivity.
  unfold numClusters.
  destruct (parseInt_shape (a :: r)) as [H|[n H]]; rewrite H; [reflexivity|].
  unfold num_truthy; destruct (n =? 0)%Z; simpl negb; cbv iota;
    rewrite ?Math_min_int, Math_max_int; reflexivity.
Qed.

(** Whatever is typed, the request asks for between 2 and 10 clusters. *)
Theorem numClusters_range (clusters : option jsstr) :
  exists k, numClusters clusters = Fin k 0 /\ (2 <= k <= 10)%Z.
Proof.
  rewrite numClusters_value; eexists; split; [reflexivity|].
  destruct clusters as [[|a r]|]; try lia.
  destruct (parseInt (a :: r)); try lia.
  destruct (m =? 0)%Z; lia.
Qed.

(** ** The processing history *)

(** Every history update of the analyzer keeps [currentHistoryIndex] at [-1]
    on an empty history and inside it otherwise; after an append it selects
    the new entry, and the earlier entries are kept. *)
Theorem history_index_valid :
  History.wf History.created /\
  forall (entry : jsstr * jsstr) (h : History.t),
    History.wf (History.append entry h) /\
    nth_error (History.processHistory (History.append entry h))
              (Z.to_nat (History.currentHistoryIndex (History.append entry h))) = Some entry /\
    firstn (List.length (History.processHistory h))
           (History.processHistory (History.append entry h)) = History.processHistory h.
Proof.
  split; [left; split; reflexivity|].
  intros entry h; unfold History.append; cbn [History.processHistory History.currentHistoryIndex].
  rewrite length_app; simpl List.length.
  split; [right; cbn [History.processHistory History.currentHistoryIndex];
          rewrite length_app; simpl List.length; lia|].
  split.
  - replace (Z.to_nat (Z.of_nat (List.length (History.processHistory h) + 1) - 1))
      with (List.length (History.processHistory h)) by lia.
    rewrite nth_error_app2, Nat.sub_diag by lia; reflexivity.
  - rewrite firstn_app, Nat.sub_diag, firstn_all; simpl; apply app_nil_r.
Qed.

(** ** The Create button *)

(** Opening the dialog and choosing a model both disable Create; only a
    status check reporting the model as loaded enables it again, and only
    with a file or a recording selected. *)
Theorem create_needs_loaded_model :
  (forall d, canCreate (resetOnOpen d) = false) /\
  (forall value d, canCreate (handleModelChange value d) = false) /\
  (forall response d,
     canCreate (checkModelStatus response d) =
       (str_truthy (Dialog.localAudioFile d) || str_truthy (Dialog.localRecordedFile d)) &&
       match response with Some true => true | _ => false end).
Proof.
  split; [intros d; reflexivity|]; split.
  - intros value d; unfold canCreate; simpl; apply andb_false_r.
  - intros [[|]|] d; reflexivity.
Qed.

(** ** [parseFloat] reads back [Number::toString] *)

Lemma digit_char_code (d : nat) : (d < 10)%nat -> code (digit_char d) = (48 + d)%nat.
Proof. intros H; unfold code, digit_char; apply nat_ascii_embedding; lia. Qed.

Lemma is_digit_digit_char (d : nat) : (d < 10)%nat -> is_digit (digit_char d) = true.
Proof.
  intros H; unfold is_digit; rewrite digit_char_code by exact H.
  apply andb_true_intro; split; apply Nat.leb_le; lia.
Qed.

Lemma span_digits_app (ds : list nat) (r : jsstr) :
  Forall (fun d => d < 10)%nat ds -> not_digit_head r ->
  span_digits (digits_str ds ++ r) = (ds, r).
Proof.
  induction 1 as [|d ds Hd Hds IH]; intros Hr.
  - destruct r as [|c r]; [reflexivity|]; simpl in Hr.
    change ((if is_digit c then let (ds, r') := span_digits r in ((code c - 48)%nat :: ds, r')
             else ([], c :: r)) = ([], c :: r)).
    rewrite Hr; reflexivity.
  - change ((if is_digit (digit_char d)
             then let (ds', r') := span_digits (digits_str ds ++ r) in
                  ((code (digit_char d) - 48)%nat :: ds', r')
             else ([], digit_char d :: digits_str ds ++ r)) = (d :: ds, r)).
    rewrite is_digit_digit_char, IH, digit_char_code by assumption.
    cbv beta iota; do 2 f_equal; lia.
Qed.

Lemma fold_digits (ds : list nat) (acc : Z) :
  fold_left (fun acc d => (acc * 10 + Z.of_nat d)%Z) ds acc =
    (acc * 10 ^ Z.of_nat (List.length ds) + digits_val ds)%Z.
Proof.
  unfold digits_val; revert acc; induction ds as [|d ds IH]; intros acc;
    cbn [fold_left List.length].
  - simpl; ring.
  - rewrite (IH (acc * 10 + Z.of_nat d)%Z), (IH (0 * 10 + Z.of_nat d)%Z).
    rewrite Nat2Z.inj_succ, Z.pow_succ_r by lia; ring.
Qed.

Lemma digits_val_app (a b : list nat) :
  digits_val (a ++ b) = (digits_val a * 10 ^ Z.of_nat (List.length b) + digits_val b)%Z.
Proof. unfold digits_val at 1; rewrite fold_left_app, fold_digits; reflexivity. Qed.

Lemma digits_val_zeros (j : nat) : digits_val (repeat 0%nat j) = 0%Z.
Proof.
  induction j as [|j IH]; [reflexivity|].
  change (repeat 0%nat (S j)) with ([0%nat] ++ repeat 0%nat j).
  rewrite digits_val_app, IH; reflexivity.
Qed.

Lemma z_digits_not_nil (fuel : nat) (n : Z) (x : nat) (acc : list nat) :
  z_digits fuel n (x :: acc) <> [].
Proof.
  revert n x acc; induction fuel as [|f IH]; intros n x acc; simpl; [discriminate|].
  destruct (n <? 10)%Z; [discriminate | apply IH].
Qed.

Lemma z_digits_spec (fuel : nat) (n : Z) (acc : list nat) :
  (0 <= n < 10 ^ Z.of_nat fuel)%Z -> Forall (fun d => d < 10)%nat acc ->
  digits_val (z_digits fuel n acc) = (n * 10 ^ Z.of_nat (List.length acc) + digits_val acc)%Z /\
  Forall (fun d => d < 10)%nat (z_digits fuel n acc).
Proof.
  revert n acc; induction fuel as [|f IH]; intros n acc Hn Hacc; simpl.
  - simpl in Hn; assert (n = 0%Z) by lia; subst; split; [reflexivity | exact Hacc].
  - assert (Hd : (Z.to_nat (n mod 10) < 10)%nat).
    { apply Nat2Z.inj_lt; rewrite Z2Nat.id; pose proof (Z.mod_pos_bound n 10); lia. }
    assert (Hv : digits_val (Z.to_nat (n mod 10) :: acc) =
                 (n mod 10 * 10 ^ Z.of_nat (List.length acc) + digits_val acc)%Z).
    { change (Z.to_nat (n mod 10) :: acc) with ([Z.to_nat (n mod 10)] ++ acc).
      rewrite digits_val_app.
      change (digits_val [Z.to_nat (n mod 10)]) with (0 * 10 + Z.of_nat (Z.to_nat (n mod 10)))%Z.
      rewrite Z2Nat.id by (pose proof (Z.mod_pos_bound n 10); lia); ring. }
    destruct (Z.ltb_spec n 10).
    + rewrite Hv; split; [rewrite Z.mod_small by lia; reflexivity | constructor; assumption].
    + rewrite Nat2Z.inj_succ, Z.pow_succ_r in Hn by lia.
      destruct (IH (n / 10)%Z (Z.to_nat (n mod 10) :: acc)) as [IH1 IH2].
      { split; [apply Z.div_pos; lia | apply Z.div_lt_upper_bound; lia]. }
      { constructor; assumption. }
      split; [|exact IH2].
      rewrite IH1, Hv; simpl List.length; rewrite Nat2Z.inj_succ, Z.pow_succ_r by lia.
      pose proof (Z.div_mod n 10 ltac:(lia)); nia.
Qed.

Lemma pos_lt_pow2 (p : positive) : (Z.pos p < 2 ^ Z.of_nat (Pos.size_nat p))%Z.
Proof.
  induction p as [p IH|p IH|]; cbn [Pos.size_nat].
  - rewrite Nat2Z.inj_succ, Z.pow_succ_r, Pos2Z.inj_xI by lia; lia.
  - rewrite Nat2Z.inj_succ, Z.pow_succ_r, Pos2Z.inj_xO by lia; lia.
  - reflexivity.
Qed.

Lemma digits_of_spec (n : Z) :
  (0 <= n)%Z ->
  digits_val (digits_of n) = n /\ Forall (fun d => d < 10)%nat (digits_of n) /\
  digits_of n <> [].
Proof.
  intros Hn; unfold digits_of.
  assert (Hf : (0 <= n < 10 ^ Z.of_nat (Pos.size_nat (Z.to_pos n)))%Z).
  { split; [exact Hn|].
    destruct (Z.eq_dec n 0) as [->|Hz]; [reflexivity|].
    assert (H2 := pos_lt_pow2 (Z.to_pos n)); rewrite Z2Pos.id in H2 by lia.
    eapply Z.lt_le_trans; [exact H2|]; apply Z.pow_le_mono_l; lia. }
  destruct (z_digits_spec _ n [] Hf (Forall_nil _)) as [H1 H2].
  split; [rewrite H1; change (digits_val []) with 0%Z; simpl; ring|]; split; [exact H2|].
  destruct (Pos.size_nat (Z.to_pos n)) as [|f] eqn:E; [destruct (Z.to_pos n); discriminate|].
  simpl; destruct (n <? 10)%Z; [discriminate | apply z_digits_not_nil].
Qed.

Lemma pow10_succ (e : Z) : (pow10 (e + 1) == inject_Z 10 * pow10 e)%Q.
Proof.
  unfold pow10.
  destruct (Z.leb_spec 0 (e + 1)), (Z.leb_spec 0 e).
  - rewrite <- inject_Z_mult, <- Z.pow_succ_r by lia; reflexivity.
  - assert (e = (-1)%Z) by lia; subst; reflexivity.
  - lia.
  - unfold Qeq; cbn [Qnum Qden Qmult inject_Z].
    rewrite Pos2Z.inj_mul, !Z2Pos.id by (apply Z.pow_pos_nonneg; lia).
    replace (- e)%Z with (- (e + 1) + 1)%Z by lia.
    rewrite Z.pow_add_r by lia; ring.
Qed.

Lemma strip_zeros_spec (fuel : nat) (m e : Z) :
  (0 < m)%Z ->
  (0 < fst (strip_zeros fuel m e))%Z /\
  (fin_val (fst (strip_zeros fuel m e)) (snd (strip_zeros fuel m e)) == fin_val m e)%Q.
Proof.
  revert m e; induction fuel as [|f IH]; intros m e Hm; simpl; [split; [exact Hm | reflexivity]|].
  destruct (Z.eqb_spec (m mod 10) 0) as [H0|H0]; [|split; [exact Hm | reflexivity]].
  assert (Hd : m = (10 * (m / 10))%Z) by (pose proof (Z.div_mod m 10); lia).
  destruct (IH (m / 10)%Z (e + 1)%Z) as [IH1 IH2]; [lia|].
  split; [exact IH1|].
  rewrite IH2; unfold fin_val; rewrite pow10_succ, Qmult_assoc, <- inject_Z_mult.
  rewrite Z.mul_comm, <- Hd; reflexivity.
Qed.

Lemma parse_unsigned_digits (b : bool) (ds : list nat) (r1 : jsstr) (ds2 : list nat) (r2 : jsstr) :
  ds <> [] -> Forall (fun d => d < 10)%nat ds -> not_digit_head r1 ->
  match r1 with
  | c :: r => if (c =? ".")%char then span_digits r else ([], r1)
  | [] => ([], r1)
  end = (ds2, r2) ->
  parse_unsigned b (digits_str ds ++ r1) =
    Fin (if b then (- digits_val (ds ++ ds2))%Z else digits_val (ds ++ ds2))
        (parse_exponent r2 - Z.of_nat (List.length ds2))%Z.
Proof.
  intros Hne Hds Hr Hm.
  destruct ds as [|d ds']; [contradiction|].
  assert (Hd : (d < 10)%nat) by (inversion Hds; assumption).
  unfold parse_unsigned.
  replace (prefixb (s "Infinity") (digits_str (d :: ds') ++ r1)) with false.
  2: { change (digits_str (d :: ds') ++ r1) with (digit_char d :: digits_str ds' ++ r1).
       change (prefixb (s "Infinity") (digit_char d :: digits_str ds' ++ r1)) with
         (Ascii.eqb "I" (digit_char d) && prefixb (s "nfinity") (digits_str ds' ++ r1)).
       destruct (Ascii.eqb "I" (digit_char d)) eqn:E; [|reflexivity].
       apply Ascii.eqb_eq, (f_equal code) in E; rewrite digit_char_code in E by exact Hd.
       change (code "I") with 73%nat in E; lia. }
  rewrite span_digits_app by assumption.
  cbv beta iota; rewrite Hm; reflexivity.
Qed.

Lemma parse_unsigned_dot (b : bool) (ds ds2 : list nat) (r2 : jsstr) :
  ds <> [] -> Forall (fun d => d < 10)%nat ds -> Forall (fun d => d < 10)%nat ds2 ->
  not_digit_head r2 ->
  parse_unsigned b (digits_str ds ++ "."%char :: digits_str ds2 ++ r2) =
    Fin (if b then (- digits_val (ds ++ ds2))%Z else digits_val (ds ++ ds2))
        (parse_exponent r2 - Z.of_nat (List.length ds2))%Z.
Proof.
  intros H1 H2 H3 H4; apply parse_unsigned_digits; [exact H1 | exact H2 | reflexivity|].
  cbv beta iota; rewrite Ascii.eqb_refl; cbv beta iota; apply span_digits_app; assumption.
Qed.

Lemma parse_unsigned_exp (b : bool) (ds : list nat) (r : jsstr) :
  ds <> [] -> Forall (fun d => d < 10)%nat ds ->
  parse_unsigned b (digits_str ds ++ "e"%char :: r) =
    Fin (if b then (- digits_val ds)%Z else digits_val ds) (parse_exponent ("e"%char :: r)).
Proof.
  intros H1 H2; rewrite (parse_unsigned_digits b ds _ [] ("e"%char :: r));
    [| exact H1 | exact H2 | reflexivity | reflexivity].
  rewrite app_nil_r; f_equal; simpl; lia.
Qed.

Lemma span_digits_all (ds : list nat) :
  Forall (fun d => d < 10)%nat ds -> span_digits (digits_str ds) = (ds, []).
Proof. intros H; rewrite <- (app_nil_r (digits_str ds)); apply span_digits_app; [exact H | exact I]. Qed.

Lemma parse_exponent_ex (x : Z) :
  parse_exponent (s "e" ++ (if (0 <=? x)%Z then s "+" else s "-")
                        ++ digits_str (digits_of (Z.abs x))) = x.
Proof.
  destruct (digits_of_spec (Z.abs x)) as (H1 & H2 & H3); [lia|].
  remember (digits_of (Z.abs x)) as dd eqn:E; clear E.
  destruct (Z.leb_spec 0 x).
  - change ((match span_digits (digits_str dd) with
             | ([], _) => 0%Z | (ds, _) => (1 * digits_val ds)%Z end) = x).
    rewrite span_digits_all by exact H2.
    destruct dd; [contradiction|]; rewrite H1; lia.
  - change ((match span_digits (digits_str dd) with
             | ([], _) => 0%Z | (ds, _) => (-1 * digits_val ds)%Z end) = x).
    rewrite span_digits_all by exact H2.
    destruct dd; [contradiction|]; rewrite H1; lia.
Qed.

Lemma head_digit (ds : list nat) (r : jsstr) :
  ds <> [] -> Forall (fun d => d < 10)%nat ds ->
  exists c r', digits_str ds ++ r = c :: r' /\ is_digit c = true.
Proof.
  intros H1 H2; destruct ds as [|d ds]; [contradiction|].
  exists (digit_char d), (digits_str ds ++ r); split; [reflexivity|].
  apply is_digit_digit_char; inversion H2; assumption.
Qed.

Lemma zeros_digits (j : nat) : zeros j = digits_str (repeat 0%nat j).
Proof. induction j as [|j IH]; [reflexivity|]; simpl; rewrite <- IH; reflexivity. Qed.

Lemma Forall_zeros (j : nat) : Forall (fun d => d < 10)%nat (repeat 0%nat j).
Proof. apply Forall_forall; intros x Hx; apply repeat_spec in Hx; lia. Qed.

Lemma Forall_firstn_digits (n : nat) (ds : list nat) :
  Forall (fun d => d < 10)%nat ds -> Forall (fun d => d < 10)%nat (firstn n ds).
Proof.
  rewrite !Forall_forall; intros H x Hx; apply H; exact (in_firstn_in _ _ _ Hx).
Qed.

Lemma Forall_skipn_digits (n : nat) (ds : list nat) :
  Forall (fun d => d < 10)%nat ds -> Forall (fun d => d < 10)%nat (skipn n ds).
Proof.
  revert ds; induction n as [|n IH]; intros [|d ds] H; simpl; try exact H.
  apply IH; inversion H; assumption.
Qed.

Section Forms.
Variables (m' e' : Z) (ds : list nat).
Hypotheses (Hdv : digits_val ds = m') (Hdf : Forall (fun d => d < 10)%nat ds) (Hdn : ds <> []).

Lemma form_zeros :
  (0 <= e')%Z -> parses_back (digits_str ds ++ zeros (Z.to_nat e')) m' e'.
Proof.
  intros He.
  assert (Hj : Z.of_nat (Z.to_nat e') = e') by lia.
  set (j := Z.to_nat e') in *.
  assert (Hout : digits_str ds ++ zeros j = digits_str (ds ++ repeat 0%nat j) ++ [])
    by (rewrite app_nil_r, zeros_digits; unfold digits_str; rewrite map_app; reflexivity).
  assert (Hne : ds ++ repeat 0%nat j <> []) by (destruct ds; [contradiction | discriminate]).
  assert (Hf : Forall (fun d => d < 10)%nat (ds ++ repeat 0%nat j))
    by (apply Forall_app; split; [exact Hdf | apply Forall_zeros]).
  rewrite Hout.
  exists (m' * 10 ^ e')%Z, 0%Z; split; [|split].
  - intros b; rewrite (parse_unsigned_digits b _ [] [] [])
      by (first [exact Hne | exact Hf | exact I | reflexivity]).
    rewrite app_nil_r, digits_val_app, digits_val_zeros, Hdv, repeat_length, Hj.
    destruct b; f_equal; simpl; ring.
  - unfold fin_val; change (pow10 0) with (inject_Z 1); unfold pow10.
    destruct (Z.leb_spec 0 e'); [|lia].
    rewrite <- !inject_Z_mult, Z.mul_1_r; reflexivity.
  - apply head_digit; assumption.
Qed.

Lemma form_dot (nn : nat) :
  (1 <= nn < List.length ds)%nat -> Z.of_nat nn = (Z.of_nat (List.length ds) + e')%Z ->
  parses_back (digits_str (firstn nn ds) ++ s "." ++ digits_str (skipn nn ds)) m' e'.
Proof.
  intros Hn Hne.
  replace (s "." ++ digits_str (skipn nn ds)) with ("."%char :: digits_str (skipn nn ds) ++ [])
    by (rewrite app_nil_r; reflexivity).
  assert (Hf : firstn nn ds <> []).
  { intros H; apply (f_equal (@List.length nat)) in H; rewrite length_firstn in H; simpl in H; lia. }
  exists m', e'; split; [|split; [reflexivity|]].
  - intros b; rewrite parse_unsigned_dot;
      [| exact Hf | apply Forall_firstn_digits, Hdf | apply Forall_skipn_digits, Hdf | exact I].
    rewrite firstn_skipn, Hdv, length_skipn.
    destruct b; f_equal; simpl; lia.
  - apply head_digit; [exact Hf | apply Forall_firstn_digits, Hdf].
Qed.

Lemma form_small :
  (Z.of_nat (List.length ds) + e' <= 0)%Z ->
  parses_back (s "0." ++ zeros (Z.to_nat (- (Z.of_nat (List.length ds) + e'))) ++ digits_str ds) m' e'.
Proof.
  intros Hn.
  set (j := Z.to_nat (- (Z.of_nat (List.length ds) + e'))).
  assert (Hj : Z.of_nat j = (- (Z.of_nat (List.length ds) + e'))%Z) by (unfold j; lia).
  assert (Hout : s "0." ++ zeros j ++ digits_str ds =
                 digits_str [0%nat] ++ "."%char :: digits_str (repeat 0%nat j ++ ds) ++ [])
    by (rewrite app_nil_r, zeros_digits; unfold digits_str; rewrite map_app; reflexivity).
  rewrite Hout.
  exists m', e'; split; [|split; [reflexivity|]].
  - intros b; rewrite parse_unsigned_dot;
      [| discriminate | repeat constructor
       | apply Forall_app; split; [apply Forall_zeros | exact Hdf] | exact I].
    change ([0%nat] ++ repeat 0%nat j ++ ds) with (repeat 0%nat (S j) ++ ds).
    rewrite digits_val_app, digits_val_zeros, Hdv, length_app, repeat_length.
    destruct b; f_equal; simpl; lia.
  - eexists _, _; split; reflexivity.
Qed.

Lemma form_exp (t : jsstr) :
  parse_exponent ("e"%char :: t) = (Z.of_nat (List.length ds) + e' - 1)%Z ->
  parses_back
    (match ds with
     | [d] => digit_char d :: "e"%char :: t
     | d :: rest => digit_char d :: s "." ++ digits_str rest ++ "e"%char :: t
     | [] => "e"%char :: t
     end) m' e'.
Proof.
  intros Hpe.
  destruct ds as [|d [|d2 rest]]; [exfalso; apply Hdn; reflexivity| |].
  - exists m', e'; split; [|split; [reflexivity|]].
    + intros b; change (digit_char d :: "e"%char :: t) with (digits_str [d] ++ "e"%char :: t).
      rewrite parse_unsigned_exp by (first [discriminate | exact Hdf]).
      change (Z.of_nat (List.length [d])) with 1%Z in Hpe.
      rewrite Hdv, Hpe; destruct b; f_equal; lia.
    + exists (digit_char d), ("e"%char :: t); split; [reflexivity|].
      apply is_digit_digit_char; inversion Hdf; assumption.
  - exists m', e'; split; [|split; [reflexivity|]].
    + intros b.
      change (digit_char d :: s "." ++ digits_str (d2 :: rest) ++ "e"%char :: t)
        with (digits_str [d] ++ "."%char :: digits_str (d2 :: rest) ++ "e"%char :: t).
      inversion Hdf as [|? ? Hd Hrest].
      rewrite parse_unsigned_dot by (first [discriminate | constructor; [exact Hd | constructor]
                                            | exact Hrest | reflexivity]).
      change ([d] ++ d2 :: rest) with (d :: d2 :: rest).
      rewrite Hdv, Hpe; destruct b; f_equal; simpl List.length; lia.
    + exists (digit_char d), (s "." ++ digits_str (d2 :: rest) ++ "e"%char :: t); split; [reflexivity|].
      apply is_digit_digit_char; inversion Hdf; assumption.
Qed.

End Forms.

Lemma pos_to_string_spec (m e : Z) : (0 < m)%Z -> parses_back (pos_to_string m e) m e.
Proof.
  intros Hm; unfold pos_to_string.
  destruct (strip_zeros_spec (Pos.size_nat (Z.to_pos m)) m e Hm) as [Hm' Hv].
  destruct (strip_zeros (Pos.size_nat (Z.to_pos m)) m e) as [m' e']; simpl in Hm', Hv.
  assert (Hw : forall out, parses_back out m' e' -> parses_back out m e).
  { intros out (M & E & H1 & H2 & H3); exists M, E; split; [exact H1|].
    split; [rewrite H2; exact Hv | exact H3]. }
  apply Hw; clear Hw Hv.
  destruct (digits_of_spec m') as (Hdv & Hdf & Hdn); [lia|].
  remember (digits_of m') as ds eqn:Eds; clear Eds.
  cbv zeta.
  assert (Hk : (1 <= List.length ds)%nat) by (destruct ds; [contradiction | simpl; lia]).
  destruct (Z.leb_spec (Z.of_nat (List.length ds)) (Z.of_nat (List.length ds) + e'));
  destruct (Z.leb_spec (Z.of_nat (List.length ds) + e') 21);
  destruct (Z.ltb_spec 0 (Z.of_nat (List.length ds) + e'));
  destruct (Z.ltb_spec (-6) (Z.of_nat (List.length ds) + e'));
  destruct (Z.leb_spec (Z.of_nat (List.length ds) + e') 0);
  cbn [andb];
  first
    [ exfalso; lia
    | rewrite Z.add_simpl_l; apply form_zeros; solve [assumption | lia]
    | apply form_dot; solve [assumption | lia]
    | apply form_small; solve [assumption | lia]
    | apply form_exp; solve [assumption | apply parse_exponent_ex] ].
Qed.

Lemma parseFloat_digit_head (c : ascii) (r : jsstr) :
  is_digit c = true -> parseFloat (c :: r) = parse_unsigned false (c :: r).
Proof.
  intros H; unfold is_digit in H; apply andb_prop in H; destruct H as [H1 H2].
  apply Nat.leb_le in H1; apply Nat.leb_le in H2.
  unfold parseFloat; cbn [trim_start].
  replace (is_ws c) with false
    by (unfold is_ws; destruct (Nat.leb_spec 9 (code c)), (Nat.leb_spec (code c) 13),
          (Nat.eqb_spec (code c) 32), (Nat.eqb_spec (code c) 160); simpl; try reflexivity; lia).
  destruct (Ascii.eqb_spec c "-") as [->|]; [cbn in H1; lia|].
  destruct (Ascii.eqb_spec c "+") as [->|]; [cbn in H1; lia|].
  reflexivity.
Qed.

Lemma fin_val_opp (m e : Z) : (fin_val (- m) e == - fin_val m e)%Q.
Proof. unfold fin_val; rewrite inject_Z_opp; ring. Qed.

Lemma parseFloat_pos_to_string (m e : Z) : (0 < m)%Z ->
  exists M E, parseFloat (pos_to_string m e) = Fin M E /\ (fin_val M E == fin_val m e)%Q.
Proof.
  intros Hm; destruct (pos_to_string_spec m e Hm) as (M & E & H1 & H2 & c & r & Hcr & Hc).
  exists M, E; split; [|exact H2].
  rewrite Hcr, parseFloat_digit_head, <- Hcr, H1 by exact Hc; reflexivity.
Qed.

Lemma fin_val_pos (m e : Z) : (0 < m)%Z -> (0 < fin_val m e)%Q.
Proof.
  intros Hm; unfold fin_val, pow10; apply Qmult_lt_0_compat.
  - unfold Qlt; simpl; lia.
  - destruct (Z.leb_spec 0 e); unfold Qlt; simpl; [|lia].
    pose proof (Z.pow_pos_nonneg 10 e); lia.
Qed.

Lemma parseFloat_num_toString_fin (m e : Z) :
  exists M E, parseFloat (num_toString (Fin m e)) = Fin M E /\ (fin_val M E == fin_val m e)%Q.
Proof.
  unfold num_toString.
  destruct (Z.eqb_spec m 0) as [->|Hm0].
  - exists 0%Z, 0%Z; split; [reflexivity|].
    unfold fin_val; change (inject_Z 0) with 0%Q; rewrite !Qmult_0_l; reflexivity.
  - destruct (Z.ltb_spec m 0).
    + destruct (parseFloat_pos_to_string (- m) e) as (M & E & H1 & H2); [lia|].
      destruct (pos_to_string_spec (- m) e) as (M' & E' & H1' & H2' & _); [lia|].
      exists (- M')%Z, E'; split.
      * replace (parseFloat (s "-" ++ pos_to_string (- m) e))
          with (parse_unsigned true (pos_to_string (- m) e)) by reflexivity.
        apply H1'.
      * rewrite fin_val_opp, H2', fin_val_opp, Qopp_involutive; reflexivity.
    + apply parseFloat_pos_to_string; lia.
Qed.

(** [parseFloat(x.toString())] is [x] again, for every number [x]:
    [NaN], the infinities and every finite value, in each of the four
    output forms of [Number::toString]. *)
Theorem parseFloat_toString (x : num) : same_number (parseFloat (num_toString x)) x.
Proof.
  destruct x as [| | |m e]; try exact I.
  destruct (parseFloat_num_toString_fin m e) as (M & E & H1 & H2).
  rewrite H1; exact H2.
Qed.

(** Checking "use full audio" when the duration is a positive number (or
    [Infinity]) and then unchecking it leaves full audio off, the start
    field "0" and the end field the duration's [toString()], a segment
    that [validateTimeSegment] accepts. *)
Theorem full_audio_range_validates (d : Dialog.t) (dur : num) :
  Dialog.audioDuration d = Some dur -> num_lt (Fin 0 0) dur = true ->
  let d' := Dialog.handleUseFullAudioChange false (Dialog.handleUseFullAudioChange true d) in
  Dialog.useFullAudio d' = false /\ Dialog.startTime d' = s "0" /\
  Dialog.endTime d' = num_toString dur /\ validateTimeSegment d' = true.
Proof.
  intros Hd Hpos; cbv zeta.
  assert (Ht : num_truthy dur = true).
  { destruct dur as [| | |m e]; try discriminate; try reflexivity.
    simpl; destruct (Z.eqb_spec m 0) as [->|]; [|reflexivity].
    unfold num_lt, Qlt_bool in Hpos; unfold fin_val in Hpos; simpl in Hpos; discriminate. }
  assert (Heq : Dialog.handleUseFullAudioChange false (Dialog.handleUseFullAudioChange true d) =
                Dialog.setUseFullAudio false
                  (Dialog.setEndTime (num_toString dur)
                     (Dialog.setStartTime (s "0") (Dialog.setUseFullAudio true d)))).
  { unfold Dialog.handleUseFullAudioChange at 2; rewrite Hd; cbn [andb]; rewrite Ht.
    unfold Dialog.handleUseFullAudioChange.
    cbn [Dialog.audioDuration Dialog.setUseFullAudio Dialog.setEndTime Dialog.setStartTime].
    rewrite Hd; reflexivity. }
  rewrite Heq; split; [reflexivity|]; split; [reflexivity|]; split; [reflexivity|].
  unfold validateTimeSegment.
  cbn [Dialog.useFullAudio Dialog.startTime Dialog.endTime Dialog.audioDuration
       Dialog.setUseFullAudio Dialog.setEndTime Dialog.setStartTime].
  rewrite Hd.
  destruct dur as [| | |m e]; try discriminate; [reflexivity|].
  assert (Hp : (0 < fin_val m e)%Q).
  { unfold num_lt, Qlt_bool in Hpos; apply negb_true_iff in Hpos.
    change (fin_val 0 0) with 0%Q in Hpos.
    destruct (Qlt_le_dec 0 (fin_val m e)) as [|Hle]; [assumption|].
    apply Qle_bool_iff in Hle; congruence. }
  destruct (parseFloat_num_toString_fin m e) as (M & E & HM & HQ).
  rewrite HM; replace (parseFloat (s "0")) with (Fin 0 0) by reflexivity.
  assert (E1 : num_le (Fin M E) (Fin 0 0) = false).
  { unfold num_le; change (fin_val 0 0) with 0%Q.
    destruct (Qle_bool (fin_val M E) 0) eqn:E1; [|reflexivity].
    apply Qle_bool_iff in E1; rewrite HQ in E1; exfalso; exact (Qlt_not_le _ _ Hp E1). }
  assert (E2 : num_lt (Fin m e) (Fin M E) = false).
  { unfold num_lt, Qlt_bool; rewrite (proj2 (Qle_bool_iff _ _)); [reflexivity|].
    rewrite HQ; apply Qle_refl. }
  unfold segment_ok; rewrite E1, E2, Ht; reflexivity.
Qed.

Lemma full_audio_range_validates_witness :
  Dialog.audioDuration (dialog_with false (s "3") (s "1") (Some (Fin 125 (-1)))) = Some (Fin 125 (-1)) /\
  num_lt (Fin 0 0) (Fin 125 (-1)) = true /\
  let d' := Dialog.handleUseFullAudioChange false
              (Dialog.handleUseFullAudioChange true (dialog_with false (s "3") (s "1") (Some (Fin 125 (-1))))) in
  Dialog.useFullAudio d' = false /\ Dialog.startTime d' = s "0" /\
  Dialog.endTime d' = num_toString (Fin 125 (-1)) /\ validateTimeSegment d' = true.
Proof.
  split; [reflexivity|]; split; [reflexivity|].
  apply (full_audio_range_validates _ (Fin 125 (-1))); reflexivity.
Defined.
